(** * chordpro-renderer: the ChordProRenderer component

    A shallow embedding of [src/chordpro-renderer.ts]: the view-state
    fields of the Lit element, its two getters ([formattedSheet],
    [extractedChords]), its event handlers, the lifecycle callbacks and
    the template produced by [render].

    The collaborators imported from [chordsheetjs] (parser and the two
    formatters) and the built-in [JSON.stringify] are not part of the
    repository; they are section variables, so every theorem holds for any
    implementation of them. *)

From stdpp Require Import base decidable option list sorting gmap strings.
From Stdlib Require Import NArith Ascii String.

Local Open Scope N_scope.
Local Open Scope list_scope.

(** ** JavaScript strings

    A JavaScript string is a sequence of UTF-16 code units.  Both
    [String.prototype.trim] and the default comparison of
    [Array.prototype.sort] work on code units. *)

Definition jsstring := list N.

(** An ASCII literal as a JavaScript string. *)
Definition str (s : string) : jsstring :=
  (fun a => N_of_ascii a) <$> list_ascii_of_string s.

(** ECMAScript WhiteSpace and LineTerminator code points, the characters
    removed by [trim]. *)
Definition is_white_space (c : N) : bool :=
  (c =? 0x0009) || (c =? 0x000A) || (c =? 0x000B) || (c =? 0x000C) ||
  (c =? 0x000D) || (c =? 0x0020) || (c =? 0x00A0) || (c =? 0x1680) ||
  ((0x2000 <=? c) && (c <=? 0x200A)) ||
  (c =? 0x2028) || (c =? 0x2029) || (c =? 0x202F) || (c =? 0x205F) ||
  (c =? 0x3000) || (c =? 0xFEFF).

Fixpoint trimStart (s : jsstring) : jsstring :=
  match s with
  | c :: s' => if is_white_space c then trimStart s' else s
  | [] => []
  end.

Definition trimEnd (s : jsstring) : jsstring :=
  reverse (trimStart (reverse s)).

(** [String.prototype.trim] *)
Definition trim (s : jsstring) : jsstring := trimEnd (trimStart s).

(** The relational comparison [x < y] of two strings: code unit by code
    unit, a proper prefix being smaller. *)
Fixpoint str_ltb (x y : jsstring) : bool :=
  match x, y with
  | _, [] => false
  | [], _ :: _ => true
  | a :: x', b :: y' =>
      if a <? b then true
      else if b <? a then false
      else str_ltb x' y'
  end.

Definition str_lt (x y : jsstring) : Prop := str_ltb x y = true.

(** [SortCompare] with no comparator puts [x] before [y] unless [y < x]. *)
Definition str_le (x y : jsstring) : Prop := str_ltb y x = false.

#[global] Instance str_le_dec x y : Decision (str_le x y).
Proof. unfold str_le. apply _. Defined.

#[global] Instance str_lt_dec x y : Decision (str_lt x y).
Proof. unfold str_lt. apply _. Defined.

(** ** JavaScript values

    The callbacks of [extractedChords] take their arguments as [any]; the
    only property they read is [item.chords], which they test for
    truthiness and with [typeof]. *)

Inductive JsValue : Type :=
  | JsUndefined
  | JsNull
  | JsBoolean (b : bool)
  | JsNumber (n : Z)               (* an integral number *)
  | JsString (s : jsstring)
  | JsObject (id : positive).      (* an object or an array, by identity *)

Inductive JsType : Type :=
  | TUndefined | TObject | TBoolean | TNumber | TString.

Definition typeof (v : JsValue) : JsType :=
  match v with
  | JsUndefined => TUndefined
  | JsNull => TObject
  | JsBoolean _ => TBoolean
  | JsNumber _ => TNumber
  | JsString _ => TString
  | JsObject _ => TObject
  end.

#[global] Instance JsType_eq_dec : EqDecision JsType.
Proof. solve_decision. Defined.

(** [ToBoolean]: the falsy values are [undefined], [null], [false], [0]
    and the empty string. *)
Definition ToBoolean (v : JsValue) : bool :=
  match v with
  | JsUndefined | JsNull => false
  | JsBoolean b => b
  | JsNumber n => negb (n =? 0)%Z
  | JsString s => match s with [] => false | _ :: _ => true end
  | JsObject _ => true
  end.

(** ** The parsed song

    [Song], [Line] and the line items come from [chordsheetjs], where
    [lines] and [items] are arrays; only the properties this component
    reads are kept.  An item that is not a chord-lyrics pair (a tag, a
    comment) has no [chords] property: reading it gives [undefined]. *)

Record Item : Type := { chords : JsValue }.
Record Line : Type := { items : list Item }.
Record Song : Type := { lines : list Line }.

(** ** [Set<string>] and [Array.prototype.sort]

    A [Set] keeps its members in insertion order; [add] of a member that
    is already present changes nothing. *)

Definition JsSet := list jsstring.

Definition Set_new : JsSet := [].

Definition Set_add (x : jsstring) (s : JsSet) : JsSet :=
  if decide (x ∈ s) then s else s ++ [x].

Definition Array_from (s : JsSet) : list jsstring := s.

(** [sort()] without a comparator orders strings by [str_le].  Any sorting
    algorithm gives the same array on distinct strings (see
    [Array_sort_unique]). *)
Definition Array_sort (l : list jsstring) : list jsstring :=
  merge_sort str_le l.

(** The body of the inner [forEach] callback. *)
Definition visit_item (chords0 : JsSet) (item : Item) : JsSet :=
  if ToBoolean (chords item) && bool_decide (typeof (chords item) = TString)
  then
    match chords item with
    | JsString s =>
        let chordString := trim s in
        if ToBoolean (JsString chordString)
        then Set_add chordString chords0
        else chords0
    | _ => chords0
    end
  else chords0.

(** [line.items.forEach(...)] *)
Definition visit_line (chords0 : JsSet) (line : Line) : JsSet :=
  foldl visit_item chords0 (items line).

(** [song.lines.forEach(...)], starting from the empty set. *)
Definition collect_chords (song : Song) : JsSet :=
  foldl visit_line Set_new (lines song).

(** [Array.from(chords).sort()] *)
Definition chordArray_of (song : Song) : list jsstring :=
  Array_sort (Array_from (collect_chords song)).

Definition G_a_C_b_G_c : Song :=
  {| lines :=
       [ {| items := [ {| chords := JsUndefined |} ] |};
         {| items := [ {| chords := JsString (str "G") |};
                       {| chords := JsString (str "C") |};
                       {| chords := JsString (str "G") |} ] |} ] |}.

(** ** View state

    The reactive properties ([@property]) are set by the host page, the
    [@state] fields are the component's own copies. *)

Inductive Mode : Type := ModeHtml | ModeText.
Inductive Position : Type := PosTop | PosRight | PosBottom.

#[global] Instance Mode_eq_dec : EqDecision Mode.
Proof. solve_decision. Defined.

#[global] Instance Position_eq_dec : EqDecision Position.
Proof. solve_decision. Defined.

Record Component : Type := {
  content : jsstring;
  instrument : jsstring;
  showChords : bool;
  chordPosition : Position;
  format : Mode;
  _mode : Mode;
  _showChordsInternal : bool;
  _selectedInstrument : jsstring
}.

(** The field initialisers of the class. *)
Definition initial : Component :=
  {| content := str "";
     instrument := str "Standard Ukulele";
     showChords := false;
     chordPosition := PosTop;
     format := ModeHtml;
     _mode := ModeHtml;
     _showChordsInternal := false;
     _selectedInstrument := str "Standard Ukulele" |}.

Definition availableInstruments : list jsstring :=
  [ str "Standard Ukulele";
    str "Baritone Ukulele";
    str "5ths tuned Ukulele";
    str "Standard Guitar";
    str "Drop-D Guitar";
    str "Standard Mandolin" ].

Definition with_mode (m : Mode) (c : Component) : Component :=
  {| content := content c; instrument := instrument c;
     showChords := showChords c; chordPosition := chordPosition c;
     format := format c;
     _mode := m;
     _showChordsInternal := _showChordsInternal c;
     _selectedInstrument := _selectedInstrument c |}.

Definition with_showChordsInternal (b : bool) (c : Component) : Component :=
  {| content := content c; instrument := instrument c;
     showChords := showChords c; chordPosition := chordPosition c;
     format := format c;
     _mode := _mode c;
     _showChordsInternal := b;
     _selectedInstrument := _selectedInstrument c |}.

Definition with_selectedInstrument (i : jsstring) (c : Component) : Component :=
  {| content := content c; instrument := instrument c;
     showChords := showChords c; chordPosition := chordPosition c;
     format := format c;
     _mode := _mode c;
     _showChordsInternal := _showChordsInternal c;
     _selectedInstrument := i |}.

(** ** Observable effects *)

Inductive Detail : Type :=
  | DetailChords (chords : list jsstring)
  | DetailInstrument (instrument : jsstring)
  | DetailMode (mode : Mode).

Record CustomEvent : Type := {
  ev_type : string;
  detail : Detail;
  bubbles : bool;
  composed : bool
}.

Inductive Effect : Type :=
  | Dispatch (e : CustomEvent)
  | ConsoleError (label : jsstring) (error : JsValue).

(** The events among a list of effects, in order. *)
Definition dispatched (t : list Effect) : list CustomEvent :=
  omap (fun e => match e with Dispatch ev => Some ev | _ => None end) t.

(** ** Computations

    A method runs on the component ([this]), may change its fields, leaves
    a trace of effects, and completes normally or by throwing. *)

Inductive Completion (A : Type) : Type :=
  | Normal (a : A)
  | Throw (error : JsValue).
Arguments Normal {A} a.
Arguments Throw {A} error.

Record Outcome (A : Type) : Type := {
  this_after : Component;
  trace : list Effect;
  completion : Completion A
}.
Arguments Build_Outcome {A} _ _ _.
Arguments this_after {A} _.
Arguments trace {A} _.
Arguments completion {A} _.

Definition M (A : Type) : Type := Component → Outcome A.

Definition ret {A} (a : A) : M A :=
  fun this => Build_Outcome this [] (Normal a).

Definition bind {A B} (m : M A) (f : A → M B) : M B :=
  fun this =>
    let r := m this in
    match completion r with
    | Normal a =>
        let r' := f a (this_after r) in
        Build_Outcome (this_after r') (trace r ++ trace r') (completion r')
    | Throw e => Build_Outcome (this_after r) (trace r) (Throw e)
    end.

(** [try { m } catch (e) { h e }] *)
Definition try_catch {A} (m : M A) (h : JsValue → M A) : M A :=
  fun this =>
    let r := m this in
    match completion r with
    | Normal a => r
    | Throw e =>
        let r' := h e (this_after r) in
        Build_Outcome (this_after r') (trace r ++ trace r') (completion r')
    end.

Definition get_this : M Component :=
  fun this => Build_Outcome this [] (Normal this).

Definition set_this (f : Component → Component) : M unit :=
  fun this => Build_Outcome (f this) [] (Normal tt).

(** A call into a collaborator, which returns or throws. *)
Definition call {A} (c : Completion A) : M A :=
  fun this => Build_Outcome this [] c.

(** [dispatchEvent] hands the event to the listeners and returns; what a
    listener throws is reported by the browser, not rethrown. *)
Definition dispatchEvent (e : CustomEvent) : M unit :=
  fun this => Build_Outcome this [Dispatch e] (Normal tt).

Definition console_error (label : jsstring) (error : JsValue) : M unit :=
  fun this => Build_Outcome this [ConsoleError label error] (Normal tt).

Notation "'let!' x ':=' m 'in' k" := (bind m (fun x => k))
  (at level 10, x name, m at level 100, k at level 200,
   format "'[v' 'let!'  x  ':='  m  'in' '/' k ']'").
Notation "'do!' m 'in' k" := (bind m (fun _ => k))
  (at level 10, m at level 100, k at level 200,
   format "'[v' 'do!'  m  'in' '/' k ']'").

(** ** Templates

    The parts of the [html] template of [render] that depend on the
    state.  A slot holding [''] is [None]; [html``] is [EmptyTemplate]. *)

Inductive ChordListTemplate : Type :=
  | EmptyTemplate
  | ChordChartsSection (position_class : Position)
                       (chords_prop : jsstring)
                       (instrument_prop : jsstring).

Inductive SheetTemplate : Type :=
  | InnerHTML (markup : jsstring)
  | Pre (text : jsstring)
  | NoContent.

Record InstrumentSelect : Type := {
  select_value : jsstring;
  select_options : list jsstring
}.

Record View : Type := {
  data_chord_position : Position;
  html_btn_active : bool;
  text_btn_active : bool;
  instrument_select : option InstrumentSelect;
  toggle_aria_label : jsstring;
  toggle_label : jsstring;
  top_slot : option ChordListTemplate;
  has_right_chords : bool;
  data_mode : Mode;
  sheet : SheetTemplate;
  right_chord_panel : option ChordListTemplate;
  bottom_slot : option ChordListTemplate
}.

(** [changedProperties.has(name)] *)
Definition Map_has (changedProperties : gmap string JsValue) (name : string) : bool :=
  bool_decide (is_Some (changedProperties !! name)).

Section ChordProRenderer.

(** [ChordProParser.parse], [HtmlDivFormatter.format],
    [TextFormatter.format] and [JSON.stringify] on an array of strings. *)
Variable parser_parse : jsstring → Completion Song.
Variable htmlFormatter_format : Song → Completion jsstring.
Variable textFormatter_format : Song → Completion jsstring.
Variable JSON_stringify : list jsstring → jsstring.

(** [super.connectedCallback()] belongs to Lit and touches none of the
    fields below. *)
Definition connectedCallback : M unit :=
  let! this := get_this in
  do! set_this (with_mode (format this)) in
  let! this := get_this in
  do! set_this (with_showChordsInternal (showChords this)) in
  let! this := get_this in
  set_this (with_selectedInstrument (instrument this)).

Definition updated (changedProperties : gmap string JsValue) : M unit :=
  do! (if Map_has changedProperties "format"
       then let! this := get_this in set_this (with_mode (format this))
       else ret tt) in
  do! (if Map_has changedProperties "showChords"
       then let! this := get_this in
            set_this (with_showChordsInternal (showChords this))
       else ret tt) in
  if Map_has changedProperties "instrument"
  then let! this := get_this in
       set_this (with_selectedInstrument (instrument this))
  else ret tt.

Definition invalid_format (mode : Mode) : jsstring :=
  if decide (mode = ModeHtml)
  then str "<div>Invalid ChordPro format</div>"
  else str "Invalid ChordPro format".

Definition formattedSheet : M jsstring :=
  let! this := get_this in
  if negb (ToBoolean (JsString (content this))) then ret (str "")
  else
    try_catch
      (let! song := call (parser_parse (content this)) in
       let formatter :=
         if decide (_mode this = ModeHtml)
         then htmlFormatter_format else textFormatter_format in
       call (formatter song))
      (fun _ =>
         let! this := get_this in
         ret (invalid_format (_mode this))).

Definition chords_changed (chordArray : list jsstring) : CustomEvent :=
  {| ev_type := "chords-changed";
     detail := DetailChords chordArray;
     bubbles := true;
     composed := true |}.

Definition extractedChords : M (list jsstring) :=
  try_catch
    (let! this := get_this in
     let! song := call (parser_parse (content this)) in
     let chords0 := collect_chords song in
     let chordArray := Array_sort (Array_from chords0) in
     do! dispatchEvent (chords_changed chordArray) in
     ret chordArray)
    (fun error =>
       do! console_error (str "Chord extraction error:") error in
       ret []).

Definition mode_changed (mode : Mode) : CustomEvent :=
  {| ev_type := "mode-changed";
     detail := DetailMode mode;
     bubbles := true;
     composed := true |}.

Definition handleModeChange (mode : Mode) : M unit :=
  do! set_this (with_mode mode) in
  dispatchEvent (mode_changed mode).

Definition instrument_changed (instrument0 : jsstring) : CustomEvent :=
  {| ev_type := "instrument-changed";
     detail := DetailInstrument instrument0;
     bubbles := true;
     composed := true |}.

(** [select_value] is [e.target.value]. *)
Definition handleInstrumentChange (select_value : jsstring) : M unit :=
  do! set_this (with_selectedInstrument select_value) in
  let! this := get_this in
  dispatchEvent (instrument_changed (_selectedInstrument this)).

Definition toggleChords : M unit :=
  let! this := get_this in
  set_this (with_showChordsInternal (negb (_showChordsInternal this))).

(** [a && b] and [a || b] evaluate [b] only when [a] does not decide. *)
Definition and_then (a : bool) (b : M bool) : M bool :=
  if a then b else ret false.

Definition or_else (a : bool) (b : M bool) : M bool :=
  if a then ret true else b.

Definition renderChordList : M ChordListTemplate :=
  let! this := get_this in
  let! hidden :=
    or_else (negb (_showChordsInternal this))
            (let! chordArray := extractedChords in
             ret (Nat.eqb (List.length chordArray) 0)) in
  if hidden then ret EmptyTemplate
  else
    let! this := get_this in
    let! chordArray := extractedChords in
    ret (ChordChartsSection (chordPosition this)
                            (JSON_stringify chordArray)
                            (_selectedInstrument this)).

(** [position === 'right' && this._showChordsInternal &&
     this.extractedChords.length > 0] *)
Definition right_chords_shown : M bool :=
  let! this := get_this in
  and_then (bool_decide (chordPosition this = PosRight))
    (and_then (_showChordsInternal this)
       (let! chordArray := extractedChords in
        ret (Nat.ltb 0 (List.length chordArray)))).

(** [position === p ? this.renderChordList() : ''] *)
Definition slot_at (p : Position) : M (option ChordListTemplate) :=
  let! this := get_this in
  if decide (chordPosition this = p)
  then let! t := renderChordList in ret (Some t)
  else ret None.

Definition render : M View :=
  let! hasRightChords := right_chords_shown in
  let! this := get_this in
  let select :=
    if _showChordsInternal this
    then Some {| select_value := _selectedInstrument this;
                 select_options := availableInstruments |}
    else None in
  let aria :=
    (if _showChordsInternal this then str "Hide" else str "Show")
      ++ str " chord charts" in
  let label :=
    if _showChordsInternal this
    then str "Hide Chords" else str "Show Chords" in
  let! top := slot_at PosTop in
  let! sheet0 := formattedSheet in
  let! body :=
    if ToBoolean (JsString sheet0)
    then
      if decide (_mode this = ModeHtml)
      then let! markup := formattedSheet in ret (InnerHTML markup)
      else let! text := formattedSheet in ret (Pre text)
    else ret NoContent in
  let! right_shown := right_chords_shown in
  let! right :=
    if right_shown
    then let! t := renderChordList in ret (Some t)
    else ret None in
  let! bottom := slot_at PosBottom in
  ret {| data_chord_position := chordPosition this;
         html_btn_active := bool_decide (_mode this = ModeHtml);
         text_btn_active := bool_decide (_mode this = ModeText);
         instrument_select := select;
         toggle_aria_label := aria;
         toggle_label := label;
         top_slot := top;
         has_right_chords := hasRightChords;
         data_mode := _mode this;
         sheet := body;
         right_chord_panel := right;
         bottom_slot := bottom |}.

End ChordProRenderer.

(** ** Specification vocabulary *)

(** What one item contributes to the set: the trimmed chord string, when
    the annotation is a string that is not blank. *)
Definition chord_of_item (item : Item) : option jsstring :=
  match chords item with
  | JsString s => if decide (trim s = []) then None else Some (trim s)
  | _ => None
  end.

(** [annotation song c]: some item of some line of [song] carries the
    string [c] as its chord annotation. *)
Definition annotation (song : Song) (c : jsstring) : Prop :=
  ∃ line item,
    line ∈ lines song ∧ item ∈ items line ∧ chords item = JsString c.

(** [no_chord_annotation song]: every string annotation in [song] is
    blank. *)
Definition no_chord_annotation (song : Song) : bool :=
  forallb
    (fun line =>
       forallb
         (fun item =>
            match chords item with
            | JsString c => bool_decide (trim c = [])
            | _ => true
            end)
         (items line))
    (lines song).

(** The value and the trace of one evaluation of [extractedChords], read
    off the result of the parser. *)
Definition chords_of (parsed : Completion Song) : list jsstring :=
  match parsed with
  | Normal song => chordArray_of song
  | Throw _ => []
  end.

Definition extraction_trace (parsed : Completion Song) : list Effect :=
  match parsed with
  | Normal song => [Dispatch (chords_changed (chordArray_of song))]
  | Throw error => [ConsoleError (str "Chord extraction error:") error]
  end.

(** The chart section held by a slot, with the place of the slot. *)
Definition chart_in (p : Position) (slot : option ChordListTemplate)
  : list (Position * ChordListTemplate) :=
  match slot with
  | Some (ChordChartsSection c j i) => [(p, ChordChartsSection c j i)]
  | Some EmptyTemplate | None => []
  end.

(** The chart sections of a view, each with the slot it sits in. *)
Definition panel_slots (v : View) : list (Position * ChordListTemplate) :=
  chart_in PosTop (top_slot v)
  ++ chart_in PosRight (right_chord_panel v)
  ++ chart_in PosBottom (bottom_slot v).

(** ** Test doubles for the collaborators *)

Definition always_throws : jsstring → Completion Song :=
  fun _ => Throw (JsObject 1).

Definition parses_to (song : Song) : jsstring → Completion Song :=
  fun _ => Normal song.

Definition format_as (text : jsstring) : Song → Completion jsstring :=
  fun _ => Normal text.

Fixpoint join_with (sep : jsstring) (l : list jsstring) : jsstring :=
  match l with
  | [] => []
  | [x] => x
  | x :: l' => x ++ sep ++ join_with sep l'
  end.

(** [JSON.stringify] on strings that need no escaping. *)
Definition stringify_plain (l : list jsstring) : jsstring :=
  str "[" ++ join_with (str ",") ((fun s => [34] ++ s ++ [34]) <$> l)
    ++ str "]".

Definition padded_G : Song :=
  {| lines := [ {| items := [ {| chords := JsString (str " G ") |} ] |} ] |}.

(** A song of one line without items. *)
Definition empty_song : Song := {| lines := [ {| items := [] |} ] |}.

Definition title_only : Song :=
  {| lines := [ {| items := [ {| chords := JsUndefined |} ] |} ] |}.

Definition with_content (c : jsstring) (this : Component) : Component :=
  {| content := c; instrument := instrument this;
     showChords := showChords this; chordPosition := chordPosition this;
     format := format this;
     _mode := _mode this;
     _showChordsInternal := _showChordsInternal this;
     _selectedInstrument := _selectedInstrument this |}.

(** [returns m this a]: run on [this], the computation [m] leaves the
    fields as they are and completes normally with [a]. *)
Definition returns {A} (m : M A) (this : Component) (a : A) : Prop :=
  this_after (m this) = this ∧ completion (m this) = Normal a.

(** The template [renderChordList] produces, read off the state and the
    extracted chords. *)
Definition chart_of (JSON_stringify : list jsstring → jsstring)
    (chordArray : list jsstring) (this : Component) : ChordListTemplate :=
  if _showChordsInternal this && negb (Nat.eqb (List.length chordArray) 0)
  then ChordChartsSection (chordPosition this)
                          (JSON_stringify chordArray)
                          (_selectedInstrument this)
  else EmptyTemplate.

(** The song text of the example, with its line break. *)
Definition title_T_G_a_C_b_G_c : jsstring :=
  str "{title: T}" ++ [10] ++ str "[G]a [C]b [G]c".

(** The properties of the element that belong to the host page. *)
Definition external (this : Component)
  : jsstring * jsstring * bool * Position * Mode :=
  (content this, instrument this, showChords this, chordPosition this,
   format this).

(** The example song, shown on the right with the chords visible. *)
Definition shown_right : Component :=
  {| content := title_T_G_a_C_b_G_c;
     instrument := str "Standard Guitar";
     showChords := true;
     chordPosition := PosRight;
     format := ModeText;
     _mode := ModeText;
     _showChordsInternal := true;
     _selectedInstrument := str "Standard Guitar" |}.

(** ** Vocabulary for traces and views *)

(** [runs m this a t]: run on [this], the computation [m] leaves the
    fields as they are, completes normally with [a] and leaves the trace
    [t]. *)
Definition runs {A} (m : M A) (this : Component) (a : A) (t : list Effect)
  : Prop :=
  m this = Build_Outcome this t (Normal a).

(** How many times one [render] evaluates the getter [extractedChords],
    given the array the getter returns. *)
Definition extraction_count (this : Component) (chordArray : list jsstring)
  : nat :=
  if _showChordsInternal this then
    match chordPosition this, chordArray with
    | PosRight, [] => 2
    | PosRight, _ :: _ => 4
    | _, [] => 1
    | _, _ :: _ => 2
    end
  else 0.

(** The two property bindings of the chart sections of a view. *)
Definition panel_contents (v : View) : list (jsstring * jsstring) :=
  omap (fun pt => match pt.2 with
                  | ChordChartsSection _ j i => Some (j, i)
                  | EmptyTemplate => None
                  end)
       (panel_slots v).

(** The number of items of a song. *)
Definition item_count (song : Song) : nat :=
  sum_list ((fun line => List.length (items line)) <$> lines song).

(** The members of the extracted array, read off the song. *)
Definition is_chord_of (song : Song) (x : jsstring) : Prop :=
  ∃ c, annotation song c ∧ trim c = x ∧ x ≠ [].

(** ** The build configuration ([vite.config.ts])

    [build.lib.fileName]: the name of the bundle for an output format. *)
Definition fileName (format : jsstring) : jsstring :=
  if decide (format = str "es") then str "chordpro-renderer.js"
  else if decide (format = str "umd") then str "chordpro-renderer.umd.cjs"
  else str "chordpro-renderer." ++ format ++ str ".js".

(** The view of [render], read off the state, the array the getter
    [extractedChords] returns and the string the getter [formattedSheet]
    returns. *)
Definition view_of (JSON_stringify : list jsstring → jsstring)
    (chordArray : list jsstring) (text : jsstring) (this : Component)
  : View :=
  let right_shown :=
    bool_decide (chordPosition this = PosRight)
    && _showChordsInternal this
    && Nat.ltb 0 (List.length chordArray) in
  let slot (p : Position) :=
    if decide (chordPosition this = p)
    then Some (chart_of JSON_stringify chordArray this) else None in
  {| data_chord_position := chordPosition this;
     html_btn_active := bool_decide (_mode this = ModeHtml);
     text_btn_active := bool_decide (_mode this = ModeText);
     instrument_select :=
       if _showChordsInternal this
       then Some {| select_value := _selectedInstrument this;
                    select_options := availableInstruments |}
       else None;
     toggle_aria_label :=
       (if _showChordsInternal this then str "Hide" else str "Show")
         ++ str " chord charts";
     toggle_label :=
       if _showChordsInternal this
       then str "Hide Chords" else str "Show Chords";
     top_slot := slot PosTop;
     has_right_chords := right_shown;
     data_mode := _mode this;
     sheet :=
       if ToBoolean (JsString text)
       then if decide (_mode this = ModeHtml)
            then InnerHTML text else Pre text
       else NoContent;
     right_chord_panel :=
       if right_shown
       then Some (chart_of JSON_stringify chordArray this) else None;
     bottom_slot := slot PosBottom |}.

(** The host page assigns the [chord-position] property. *)
Definition with_chordPosition (p : Position) (this : Component) : Component :=
  {| content := content this; instrument := instrument this;
     showChords := showChords this; chordPosition := p;
     format := format this;
     _mode := _mode this;
     _showChordsInternal := _showChordsInternal this;
     _selectedInstrument := _selectedInstrument this |}.

(** The string of the getter [formattedSheet], read off the content and
    the mode. *)
Definition sheet_text (parser_parse : jsstring → Completion Song)
    (htmlFormatter_format textFormatter_format : Song → Completion jsstring)
    (content0 : jsstring) (mode : Mode) : jsstring :=
  match content0 with
  | [] => str ""
  | _ :: _ =>
      match parser_parse content0 with
      | Normal song =>
          match (if decide (mode = ModeHtml)
                 then htmlFormatter_format else textFormatter_format) song
          with
          | Normal text => text
          | Throw _ => invalid_format mode
          end
      | Throw _ => invalid_format mode
      end
  end.

(** A formatter that always throws. *)
Definition always_throws_format : Song → Completion jsstring :=
  fun _ => Throw (JsObject 2).

(** The chords of the example song in another order, with padding and a
    repetition. *)
Definition C_G_padded : Song :=
  {| lines :=
       [ {| items := [ {| chords := JsString (str " C") |};
                       {| chords := JsString (str "C") |} ] |};
         {| items := [ {| chords := JsNull |};
                       {| chords := JsString (str "G ") |} ] |} ] |}.

(** A song with a lower-case chord name. *)
Definition G_am : Song :=
  {| lines :=
       [ {| items := [ {| chords := JsString (str "am") |};
                       {| chords := JsString (str "G") |} ] |} ] |}.

(** A parser that returns the song of one empty line on the empty text
    and rejects every other text. *)
Definition throws_unless_empty : jsstring → Completion Song :=
  fun text =>
    match text with
    | [] => Normal empty_song
    | _ :: _ => Throw (JsObject 1)
    end.

(** ** The order on strings *)

Lemma str_ltb_irrefl x : str_ltb x x = false.
Proof.
  induction x as [|a x IH]; simpl; [done|].
  by rewrite N.ltb_irrefl.
Qed.

Lemma str_ltb_asym x y : str_ltb x y = true → str_ltb y x = false.
Proof.
  revert y. induction x as [|a x IH]; intros [|b y]; simpl; try done.
  destruct (N.ltb_spec a b), (N.ltb_spec b a); try done; try lia.
  apply IH.
Qed.

Lemma str_ltb_trichotomy x y :
  str_ltb x y = false → str_ltb y x = false → x = y.
Proof.
  revert y. induction x as [|a x IH]; intros [|b y]; simpl; try done.
  destruct (N.ltb_spec a b), (N.ltb_spec b a); try done.
  intros Hxy Hyx. assert (a = b) as -> by lia. f_equal. by apply IH.
Qed.

Lemma str_ltb_trans x y z :
  str_ltb x y = true → str_ltb y z = true → str_ltb x z = true.
Proof.
  revert y z. induction x as [|a x IH]; intros [|b y] [|c z]; simpl; try done.
  destruct (N.ltb_spec a b), (N.ltb_spec b c), (N.ltb_spec a c),
    (N.ltb_spec b a), (N.ltb_spec c b), (N.ltb_spec c a);
    try done; try lia.
  apply IH.
Qed.

Lemma str_le_lt_eq x y : str_le x y ↔ x = y ∨ str_lt x y.
Proof.
  unfold str_le, str_lt. split.
  - intros Hyx. destruct (str_ltb x y) eqn:Hxy; [by right|left].
    by apply str_ltb_trichotomy.
  - intros [->|Hxy]; [apply str_ltb_irrefl|by apply str_ltb_asym].
Qed.

#[global] Instance str_le_total : Total str_le.
Proof.
  intros x y. unfold str_le.
  destruct (str_ltb y x) eqn:Hyx; [right|by left].
  by apply str_ltb_asym.
Qed.

#[global] Instance str_le_trans : Transitive str_le.
Proof.
  intros x y z. rewrite !str_le_lt_eq.
  intros [->|Hxy] [->|Hyz]; auto.
  right. by eapply str_ltb_trans.
Qed.

#[global] Instance str_le_antisymm : AntiSymm (=) str_le.
Proof.
  intros x y Hxy Hyx. unfold str_le in *. by apply str_ltb_trichotomy.
Qed.

#[global] Instance str_lt_trans : Transitive str_lt.
Proof. intros x y z. apply str_ltb_trans. Qed.

(** ** [Array.prototype.sort] *)

Lemma Array_sort_Sorted l : Sorted str_le (Array_sort l).
Proof. apply (Sorted_merge_sort str_le). Qed.

Lemma Array_sort_Permutation l : Array_sort l ≡ₚ l.
Proof. apply (merge_sort_Permutation str_le). Qed.

Lemma Array_sort_elem_of l x : x ∈ Array_sort l ↔ x ∈ l.
Proof. by rewrite Array_sort_Permutation. Qed.

(** The sorted array does not depend on the sorting algorithm. *)
Lemma Array_sort_unique l l' :
  l' ≡ₚ l → Sorted str_le l' → l' = Array_sort l.
Proof.
  intros Hp Hs. apply (Sorted_unique str_le); [done|apply Array_sort_Sorted|].
  by rewrite Array_sort_Permutation.
Qed.

Lemma StronglySorted_le_NoDup_lt (l : list jsstring) :
  StronglySorted str_le l → NoDup l → StronglySorted str_lt l.
Proof.
  induction 1 as [|x l Hl IH Hx]; intros Hnd; [constructor|].
  apply NoDup_cons in Hnd as [Hnotin Hnd].
  constructor; [by apply IH|].
  apply Forall_forall. intros y Hy.
  rewrite Forall_forall in Hx. specialize (Hx y Hy).
  apply str_le_lt_eq in Hx as [->|Hlt]; [done|exact Hlt].
Qed.

Lemma Array_sort_strict l :
  NoDup l → StronglySorted str_lt (Array_sort l).
Proof.
  intros Hnd. apply StronglySorted_le_NoDup_lt.
  - apply (StronglySorted_merge_sort str_le).
  - by rewrite Array_sort_Permutation.
Qed.

Lemma Array_sort_nil_inv l : Array_sort l = [] → l = [].
Proof.
  intros H. apply Permutation_nil_r. rewrite <- H.
  symmetry. apply Array_sort_Permutation.
Qed.

(** ** [trim] *)

Lemma trimStart_spec s :
  ∃ pre, s = pre ++ trimStart s
         ∧ Forall (fun c => is_white_space c = true) pre
         ∧ (∀ c, head (trimStart s) = Some c → is_white_space c = false).
Proof.
  induction s as [|c s (pre & Heq & Hpre & Hhd)]; simpl.
  - exists []. split_and!; [done|constructor|done].
  - destruct (is_white_space c) eqn:Hc.
    + exists (c :: pre). split_and!; [by rewrite Heq at 1|by constructor|done].
    + exists []. split_and!; [done|constructor|].
      simpl. by intros ? [= <-].
Qed.

Lemma trimEnd_spec s :
  ∃ post, s = trimEnd s ++ post
          ∧ Forall (fun c => is_white_space c = true) post
          ∧ (∀ c, last (trimEnd s) = Some c → is_white_space c = false).
Proof.
  unfold trimEnd.
  destruct (trimStart_spec (reverse s)) as (pre & Heq & Hpre & Hhd).
  exists (reverse pre). split_and!.
  - rewrite <- reverse_app, <- Heq. by rewrite reverse_involutive.
  - by apply Forall_reverse.
  - intros c. rewrite last_reverse. apply Hhd.
Qed.

(** [trim] only removes white space, at the two ends: what is left is a
    contiguous piece of the string, character for character. *)
Lemma trim_spec s :
  ∃ pre post,
    s = pre ++ trim s ++ post
    ∧ Forall (fun c => is_white_space c = true) pre
    ∧ Forall (fun c => is_white_space c = true) post.
Proof.
  destruct (trimStart_spec s) as (pre & Heq & Hpre & _).
  destruct (trimEnd_spec (trimStart s)) as (post & Heq' & Hpost & _).
  exists pre, post. unfold trim. by rewrite <- Heq', <- Heq.
Qed.

Lemma trimStart_id s :
  (∀ c, head s = Some c → is_white_space c = false) → trimStart s = s.
Proof.
  destruct s as [|c s]; simpl; [done|].
  intros H. by rewrite (H c eq_refl).
Qed.

(** A string with no white space at either end is its own [trim]. *)
Lemma trim_id s :
  (∀ c, head s = Some c → is_white_space c = false) →
  (∀ c, last s = Some c → is_white_space c = false) →
  trim s = s.
Proof.
  intros Hh Hl. unfold trim. rewrite (trimStart_id s Hh).
  unfold trimEnd. rewrite trimStart_id; [apply reverse_involutive|].
  intros c. rewrite head_reverse. apply Hl.
Qed.

(** ** The traversal of the song *)

Lemma trim_nil : trim [] = [].
Proof. reflexivity. Qed.

Lemma visit_item_eq chords0 item :
  visit_item chords0 item =
  match chord_of_item item with
  | Some c => Set_add c chords0
  | None => chords0
  end.
Proof.
  unfold visit_item, chord_of_item.
  destruct (chords item) as [| |b|n|s|id] eqn:Hc; simpl;
    try done; try (by destruct b); try (by destruct (negb _)).
  destruct s as [|c s]; simpl; [done|].
  destruct (trim (c :: s)) eqn:Ht; by case_decide.
Qed.

Lemma elem_of_Set_add x y (s : JsSet) : x ∈ Set_add y s ↔ x ∈ s ∨ x = y.
Proof.
  unfold Set_add. case_decide.
  - split; [auto|]. intros [?| ->]; done.
  - rewrite elem_of_app, list_elem_of_singleton. done.
Qed.

Lemma NoDup_Set_add y (s : JsSet) : NoDup s → NoDup (Set_add y s).
Proof.
  intros Hnd. unfold Set_add. case_decide; [done|].
  apply NoDup_app. split_and!; [done| |apply NoDup_singleton].
  intros x Hx ->%list_elem_of_singleton. done.
Qed.

Lemma elem_of_visit_item x chords0 item :
  x ∈ visit_item chords0 item ↔ x ∈ chords0 ∨ chord_of_item item = Some x.
Proof.
  rewrite visit_item_eq. destruct (chord_of_item item) as [c|].
  - rewrite elem_of_Set_add. split.
    + intros [?| ->]; [by left|by right].
    + intros [?|[= ->]]; [by left|by right].
  - split; [by left|]. by intros [?|?].
Qed.

Lemma NoDup_visit_item chords0 item :
  NoDup chords0 → NoDup (visit_item chords0 item).
Proof.
  rewrite visit_item_eq. destruct (chord_of_item item); [|done].
  apply NoDup_Set_add.
Qed.

Lemma elem_of_visit_line x chords0 line :
  x ∈ visit_line chords0 line ↔
  x ∈ chords0 ∨ ∃ item, item ∈ items line ∧ chord_of_item item = Some x.
Proof.
  unfold visit_line. revert chords0.
  induction (items line) as [|item l IH]; intros chords0; simpl.
  - split; [auto|]. intros [?|(? & ?%elem_of_nil & _)]; done.
  - rewrite IH, elem_of_visit_item. split.
    + intros [[?|?]|(it & ? & ?)]; [by left| |].
      * right. exists item. split; [left|done].
      * right. exists it. split; [by right|done].
    + intros [?|(it & Hin & ?)]; [by left; left|].
      apply elem_of_cons in Hin as [->|?]; [by left; right|].
      right. by exists it.
Qed.

Lemma NoDup_visit_line chords0 line :
  NoDup chords0 → NoDup (visit_line chords0 line).
Proof.
  unfold visit_line. revert chords0.
  induction (items line) as [|item l IH]; intros chords0 Hnd; simpl; [done|].
  by apply IH, NoDup_visit_item.
Qed.

Lemma elem_of_foldl_visit_line x chords0 (ls : list Line) :
  x ∈ foldl visit_line chords0 ls ↔
  x ∈ chords0 ∨
  ∃ line item, line ∈ ls ∧ item ∈ items line ∧ chord_of_item item = Some x.
Proof.
  revert chords0. induction ls as [|line ls IH]; intros chords0; simpl.
  - split; [auto|]. intros [?|(? & ? & ?%elem_of_nil & _)]; done.
  - rewrite IH, elem_of_visit_line. split.
    + intros [[?|(it & ? & ?)]|(ln & it & ? & ? & ?)]; [by left| |].
      * right. exists line, it. split_and!; [left|done|done].
      * right. exists ln, it. split_and!; [by right|done|done].
    + intros [?|(ln & it & Hin & ? & ?)]; [by left; left|].
      apply elem_of_cons in Hin as [->|?].
      * left; right. by exists it.
      * right. by exists ln, it.
Qed.

Lemma NoDup_foldl_visit_line chords0 (ls : list Line) :
  NoDup chords0 → NoDup (foldl visit_line chords0 ls).
Proof.
  revert chords0. induction ls as [|line ls IH]; intros chords0 Hnd; simpl;
    [done|].
  by apply IH, NoDup_visit_line.
Qed.

Lemma NoDup_collect_chords song : NoDup (collect_chords song).
Proof. apply NoDup_foldl_visit_line. constructor. Qed.

Lemma chord_of_item_Some item x :
  chord_of_item item = Some x ↔
  ∃ c, chords item = JsString c ∧ trim c = x ∧ x ≠ [].
Proof.
  unfold chord_of_item. split.
  - destruct (chords item) as [| | | |s|]; try done.
    case_decide; [done|]. intros [= <-]. by exists s.
  - intros (c & -> & <- & Hne). by case_decide.
Qed.

Lemma elem_of_collect_chords song x :
  x ∈ collect_chords song ↔ ∃ c, annotation song c ∧ trim c = x ∧ x ≠ [].
Proof.
  unfold collect_chords, Set_new, annotation.
  rewrite elem_of_foldl_visit_line. split.
  - intros [?%elem_of_nil|(ln & it & ? & ? & Hc)]; [done|].
    apply chord_of_item_Some in Hc as (c & ? & ? & ?).
    exists c. split_and!; [by exists ln, it|done|done].
  - intros (c & (ln & it & ? & ? & ?) & ? & ?). right.
    exists ln, it. split_and!; [done|done|].
    apply chord_of_item_Some. by exists c.
Qed.

Lemma elem_of_chordArray_of song x :
  x ∈ chordArray_of song ↔ ∃ c, annotation song c ∧ trim c = x ∧ x ≠ [].
Proof.
  unfold chordArray_of, Array_from.
  by rewrite Array_sort_elem_of, elem_of_collect_chords.
Qed.

Lemma chordArray_of_strict song : StronglySorted str_lt (chordArray_of song).
Proof. apply Array_sort_strict, NoDup_collect_chords. Qed.

Example chordArray_of_G_a_C_b_G_c :
  chordArray_of G_a_C_b_G_c = [str "C"; str "G"].
Proof. vm_compute. reflexivity. Qed.

(** ** Computations that only read the state *)

Lemma returns_ret {A} (a : A) this : returns (ret a) this a.
Proof. done. Qed.

Lemma returns_get_this this : returns get_this this this.
Proof. done. Qed.

Lemma returns_bind {A B} (m : M A) (f : A → M B) this a b :
  returns m this a → returns (f a) this b → returns (bind m f) this b.
Proof.
  intros [Hs Hc] [Hs' Hc']. unfold returns, bind.
  rewrite Hc, Hs. simpl. done.
Qed.

Lemma returns_if {A} (c : bool) (m1 m2 : M A) this a1 a2 :
  returns m1 this a1 → returns m2 this a2 →
  returns (if c then m1 else m2) this (if c then a1 else a2).
Proof. by destruct c. Qed.

Lemma returns_if_dec {A} {P : Prop} (c : Decision P) (m1 m2 : M A) this a1 a2 :
  returns m1 this a1 → returns m2 this a2 →
  returns (if c then m1 else m2) this (if c then a1 else a2).
Proof. by destruct c. Qed.

Lemma returns_inj {A} (m : M A) this a b :
  returns m this a → returns m this b → a = b.
Proof. intros [_ Ha] [_ Hb]. congruence. Qed.

Section Getters.

Variable parser_parse : jsstring → Completion Song.
Variable htmlFormatter_format : Song → Completion jsstring.
Variable textFormatter_format : Song → Completion jsstring.
Variable JSON_stringify : list jsstring → jsstring.

Local Abbreviation formattedSheet' :=
  (formattedSheet parser_parse htmlFormatter_format textFormatter_format).
Local Abbreviation extractedChords' := (extractedChords parser_parse).
Local Abbreviation renderChordList' :=
  (renderChordList parser_parse JSON_stringify).
Local Abbreviation render' :=
  (render parser_parse htmlFormatter_format textFormatter_format
          JSON_stringify).

(** One evaluation of the getter: the fields are untouched, the trace
    and the value are decided by the parser's answer. *)
Lemma extractedChords_run this :
  extractedChords' this =
  Build_Outcome this
    (extraction_trace (parser_parse (content this)))
    (Normal (chords_of (parser_parse (content this)))).
Proof.
  unfold extractedChords, try_catch, bind, call, get_this, dispatchEvent,
    console_error, ret. simpl.
  destruct (parser_parse (content this)); reflexivity.
Qed.

Lemma extractedChords_returns this :
  returns extractedChords' this (chords_of (parser_parse (content this))).
Proof. unfold returns. by rewrite extractedChords_run. Qed.

Lemma formattedSheet_empty this :
  content this = [] →
  formattedSheet' this = Build_Outcome this [] (Normal (str "")).
Proof. intros H. unfold formattedSheet, bind, get_this. simpl. by rewrite H. Qed.

Lemma formattedSheet_parse_throws this error :
  content this ≠ [] →
  parser_parse (content this) = Throw error →
  formattedSheet' this =
  Build_Outcome this [] (Normal (invalid_format (_mode this))).
Proof.
  intros Hne Hp.
  unfold formattedSheet, try_catch, bind, call, get_this, ret. simpl.
  destruct (content this) eqn:Hc; [done|]. simpl. by rewrite Hp.
Qed.

Lemma formattedSheet_format_throws this song error :
  content this ≠ [] →
  parser_parse (content this) = Normal song →
  (if decide (_mode this = ModeHtml)
   then htmlFormatter_format else textFormatter_format) song = Throw error →
  formattedSheet' this =
  Build_Outcome this [] (Normal (invalid_format (_mode this))).
Proof.
  intros Hne Hp Hf.
  unfold formattedSheet, try_catch, bind, call, get_this, ret. simpl.
  destruct (content this) eqn:Hc; [done|]. simpl. rewrite Hp. simpl.
  by rewrite Hf.
Qed.

Lemma formattedSheet_formatted this song text :
  content this ≠ [] →
  parser_parse (content this) = Normal song →
  (if decide (_mode this = ModeHtml)
   then htmlFormatter_format else textFormatter_format) song = Normal text →
  formattedSheet' this = Build_Outcome this [] (Normal text).
Proof.
  intros Hne Hp Hf.
  unfold formattedSheet, try_catch, bind, call, get_this, ret. simpl.
  destruct (content this) eqn:Hc; [done|]. simpl. rewrite Hp. simpl.
  by rewrite Hf.
Qed.

(** The getter always completes normally, with an empty trace. *)
Lemma formattedSheet_total this :
  ∃ text, formattedSheet' this = Build_Outcome this [] (Normal text).
Proof.
  destruct (decide (content this = [])) as [He|Hne].
  { eexists. by apply formattedSheet_empty. }
  destruct (parser_parse (content this)) as [song|e] eqn:Hp.
  - destruct ((if decide (_mode this = ModeHtml)
               then htmlFormatter_format else textFormatter_format) song)
      as [text|e] eqn:Hf.
    + eexists. by eapply formattedSheet_formatted.
    + eexists. by eapply formattedSheet_format_throws.
  - eexists. by eapply formattedSheet_parse_throws.
Qed.

Lemma formattedSheet_returns this :
  ∃ text, returns formattedSheet' this text.
Proof.
  destruct (formattedSheet_total this) as [text H].
  exists text. unfold returns. by rewrite H.
Qed.

Lemma renderChordList_returns this :
  returns renderChordList' this
    (chart_of JSON_stringify (chords_of (parser_parse (content this))) this).
Proof.
  unfold renderChordList, chart_of, or_else.
  eapply returns_bind; [apply returns_get_this|].
  destruct (_showChordsInternal this); simpl.
  - eapply returns_bind.
    { eapply returns_bind; [apply extractedChords_returns|apply returns_ret]. }
    destruct (Nat.eqb _ 0); simpl; [apply returns_ret|].
    eapply returns_bind; [apply returns_get_this|].
    eapply returns_bind; [apply extractedChords_returns|apply returns_ret].
  - eapply returns_bind; apply returns_ret.
Qed.

Lemma right_chords_shown_returns this :
  returns (right_chords_shown parser_parse) this
    (bool_decide (chordPosition this = PosRight)
     && _showChordsInternal this
     && Nat.ltb 0 (List.length (chords_of (parser_parse (content this))))).
Proof.
  unfold right_chords_shown, and_then.
  eapply returns_bind; [apply returns_get_this|].
  destruct (bool_decide _); simpl; [|apply returns_ret].
  destruct (_showChordsInternal this); simpl; [|apply returns_ret].
  eapply returns_bind; [apply extractedChords_returns|apply returns_ret].
Qed.

Lemma slot_at_returns p this :
  returns (slot_at parser_parse JSON_stringify p) this
    (if decide (chordPosition this = p)
     then Some (chart_of JSON_stringify
                  (chords_of (parser_parse (content this))) this)
     else None).
Proof.
  unfold slot_at.
  eapply returns_bind; [apply returns_get_this|].
  case_decide; [|apply returns_ret].
  eapply returns_bind; [apply renderChordList_returns|apply returns_ret].
Qed.

(** [render] completes normally, leaves the fields alone, and fills the
    slots of the template as follows. *)
Lemma render_view this :
  ∃ view text,
    returns render' this view
    ∧ returns formattedSheet' this text
    ∧ instrument_select view =
        (if _showChordsInternal this
         then Some {| select_value := _selectedInstrument this;
                      select_options := availableInstruments |}
         else None)
    ∧ top_slot view =
        (if decide (chordPosition this = PosTop)
         then Some (chart_of JSON_stringify
                      (chords_of (parser_parse (content this))) this)
         else None)
    ∧ right_chord_panel view =
        (if bool_decide (chordPosition this = PosRight)
            && _showChordsInternal this
            && Nat.ltb 0 (List.length (chords_of (parser_parse (content this))))
         then Some (chart_of JSON_stringify
                      (chords_of (parser_parse (content this))) this)
         else None)
    ∧ bottom_slot view =
        (if decide (chordPosition this = PosBottom)
         then Some (chart_of JSON_stringify
                      (chords_of (parser_parse (content this))) this)
         else None)
    ∧ sheet view =
        (if ToBoolean (JsString text)
         then if decide (_mode this = ModeHtml)
              then InnerHTML text else Pre text
         else NoContent)
    ∧ data_chord_position view = chordPosition this
    ∧ data_mode view = _mode this.
Proof.
  destruct (formattedSheet_returns this) as [text Ht].
  eexists _, text. split.
  { unfold render.
    eapply returns_bind; [apply right_chords_shown_returns|].
    eapply returns_bind; [apply returns_get_this|].
    eapply returns_bind; [apply slot_at_returns|].
    eapply returns_bind; [exact Ht|].
    eapply returns_bind.
    { apply returns_if; [|apply returns_ret].
      apply returns_if_dec;
        (eapply returns_bind; [exact Ht|apply returns_ret]). }
    eapply returns_bind; [apply right_chords_shown_returns|].
    eapply returns_bind.
    { apply returns_if; [|apply returns_ret].
      eapply returns_bind; [apply renderChordList_returns|apply returns_ret]. }
    eapply returns_bind; [apply slot_at_returns|].
    apply returns_ret. }
  simpl. split_and!; try done.
Qed.

End Getters.

(** ** Chord extraction *)

Lemma StronglySorted_str_lt_NoDup (l : list jsstring) :
  StronglySorted str_lt l → NoDup l.
Proof.
  induction 1 as [|x l Hl IH Hx]; constructor; [|done].
  intros Hin. rewrite Forall_forall in Hx. specialize (Hx x Hin).
  unfold str_lt in Hx. by rewrite str_ltb_irrefl in Hx.
Qed.

(** C1, as amended.  When the parser returns a song, [extractedChords]
    returns an array that is strictly increasing in the code-unit order of
    strings (so it is sorted and has no duplicates) and whose members are
    exactly the trimmed forms of the string chord annotations of the items
    of the lines that are not blank; each member is a contiguous piece of
    an annotation, character for character, the removed ends being white
    space only. *)
Theorem extractedChords_sorted_trimmed_set
    (parser_parse : jsstring → Completion Song) (this : Component) (song : Song) :
  parser_parse (content this) = Normal song →
  ∃ chordArray,
    completion (extractedChords parser_parse this) = Normal chordArray
    ∧ StronglySorted str_lt chordArray
    ∧ NoDup chordArray
    ∧ (∀ x, x ∈ chordArray ↔ ∃ c, annotation song c ∧ trim c = x ∧ x ≠ [])
    ∧ (∀ x, x ∈ chordArray →
         ∃ c pre post,
           annotation song c ∧ c = pre ++ x ++ post
           ∧ Forall (fun u => is_white_space u = true) pre
           ∧ Forall (fun u => is_white_space u = true) post).
Proof.
  intros Hp. exists (chordArray_of song).
  rewrite extractedChords_run, Hp. simpl.
  split_and!.
  - done.
  - apply chordArray_of_strict.
  - apply StronglySorted_str_lt_NoDup, chordArray_of_strict.
  - apply elem_of_chordArray_of.
  - intros x (c & Hc & <- & _)%elem_of_chordArray_of.
    destruct (trim_spec c) as (pre & post & Heq & Hpre & Hpost).
    by exists c, pre, post.
Qed.

Lemma extractedChords_sorted_trimmed_set_witness :
  ∃ chordArray,
    completion (extractedChords (parses_to G_a_C_b_G_c)
                  (with_content title_T_G_a_C_b_G_c initial))
      = Normal chordArray
    ∧ StronglySorted str_lt chordArray
    ∧ NoDup chordArray
    ∧ (∀ x, x ∈ chordArray ↔
            ∃ c, annotation G_a_C_b_G_c c ∧ trim c = x ∧ x ≠ [])
    ∧ (∀ x, x ∈ chordArray →
         ∃ c pre post,
           annotation G_a_C_b_G_c c ∧ c = pre ++ x ++ post
           ∧ Forall (fun u => is_white_space u = true) pre
           ∧ Forall (fun u => is_white_space u = true) post).
Proof.
  apply (extractedChords_sorted_trimmed_set
           (parses_to G_a_C_b_G_c)
           (with_content title_T_G_a_C_b_G_c initial)
           G_a_C_b_G_c).
  reflexivity.
Defined.

Example extractedChords_G_a_C_b_G_c :
  completion (extractedChords (parses_to G_a_C_b_G_c)
                (with_content title_T_G_a_C_b_G_c initial))
  = Normal [str "C"; str "G"].
Proof. vm_compute. reflexivity. Qed.

(** C1, as first stated, fails: the members of the array are not the
    annotations themselves.  An item annotated [" G "] gives the array
    [["G"]], in which the annotation does not occur. *)
Lemma extractedChords_untrimmed_counterexample :
  completion (extractedChords (parses_to padded_G)
                (with_content (str "[ G ]a") initial))
  = Normal [str "G"]
  ∧ ¬ (∀ x, x ∈ [str "G"] ↔ annotation padded_G x ∧ trim x ≠ []).
Proof.
  split; [vm_compute; reflexivity|].
  intros H. specialize (H (str " G ")).
  destruct H as [_ H].
  assert (str " G " ∈ [str "G"]) as Hin.
  { apply H. split; [|vm_compute; discriminate].
    exists {| items := [ {| chords := JsString (str " G ") |} ] |},
           {| chords := JsString (str " G ") |}.
    split_and!; [left|left|reflexivity]. }
  apply list_elem_of_singleton in Hin. vm_compute in Hin. discriminate.
Qed.

(** ** The invalid-format placeholder *)



Example formattedSheet_invalid_format_text_mode :
  completion (formattedSheet throws_unless_empty
                (format_as (str "<div></div>")) (format_as (str ""))
                (with_mode ModeText
                   (with_content (str "{start_of_chorus") initial)))
  = Normal (str "Invalid ChordPro format").
Proof. vm_compute. reflexivity. Qed.

(** ** The instruments *)

(** C3, as amended.  The instruments offered for selection are exactly
    the six identifiers Standard Ukulele, Baritone Ukulele,
    5ths tuned Ukulele, Standard Guitar, Drop-D Guitar and
    Standard Mandolin, each once; the [instrument] property and the
    selected instrument start as Standard Ukulele; the select element of
    the rendered view, present when the chords are shown, offers exactly
    that list. *)
Theorem availableInstruments_six :
  (∀ x, x ∈ availableInstruments ↔
        x = str "Standard Ukulele" ∨ x = str "Baritone Ukulele"
        ∨ x = str "5ths tuned Ukulele" ∨ x = str "Standard Guitar"
        ∨ x = str "Drop-D Guitar" ∨ x = str "Standard Mandolin")
  ∧ NoDup availableInstruments
  ∧ List.length availableInstruments = 6%nat
  ∧ instrument initial = str "Standard Ukulele"
  ∧ _selectedInstrument initial = str "Standard Ukulele"
  ∧ ∀ parser_parse htmlFormatter_format textFormatter_format JSON_stringify
      this,
      ∃ view,
        completion (render parser_parse htmlFormatter_format
                      textFormatter_format JSON_stringify this)
        = Normal view
        ∧ instrument_select view =
            if _showChordsInternal this
            then Some {| select_value := _selectedInstrument this;
                         select_options := availableInstruments |}
            else None.
Proof.
  split_and!.
  - intros x. unfold availableInstruments.
    rewrite !elem_of_cons, elem_of_nil. tauto.
  - apply (bool_decide_unpack _). vm_compute. exact I.
  - reflexivity.
  - reflexivity.
  - reflexivity.
  - intros parser_parse htmlFormatter_format textFormatter_format
      JSON_stringify this.
    destruct (render_view parser_parse htmlFormatter_format
                textFormatter_format JSON_stringify this)
      as (view & text & [_ Hv] & _ & Hsel & _).
    by exists view.
Qed.

(** C3, as first stated, fails: the hyphenated identifier
    5ths-tuned Ukulele is not among the instruments. *)
Lemma availableInstruments_hyphen_counterexample :
  str "5ths-tuned Ukulele" ∉ availableInstruments.
Proof.
  apply (bool_decide_unpack _). vm_compute. exact I.
Qed.

(** ** Synchronisation of the view state *)

Lemma Map_has_insert (cp : gmap string JsValue) name old :
  Map_has (<[name := old]> cp) name = true.
Proof.
  unfold Map_has. apply bool_decide_eq_true_2.
  rewrite lookup_insert_eq. by eexists.
Qed.

Lemma updated_run (cp : gmap string JsValue) this :
  updated cp this =
  Build_Outcome
    {| content := content this; instrument := instrument this;
       showChords := showChords this; chordPosition := chordPosition this;
       format := format this;
       _mode := if Map_has cp "format" then format this else _mode this;
       _showChordsInternal :=
         if Map_has cp "showChords"
         then showChords this else _showChordsInternal this;
       _selectedInstrument :=
         if Map_has cp "instrument"
         then instrument this else _selectedInstrument this |}
    [] (Normal tt).
Proof.
  unfold updated, bind, get_this, set_this, ret.
  destruct this.
  destruct (Map_has cp "format"), (Map_has cp "showChords"),
    (Map_has cp "instrument"); reflexivity.
Qed.

(** C4.  [updated] sets each internal value whose property is among the
    changed ones to the current value of that property, whatever the
    internal value was before (a choice made through a handler included),
    and leaves the other internal values alone; [connectedCallback]
    copies all three.  Neither they nor the three handlers ever assign a
    property: mode, visibility and instrument chosen by the user stay
    internal. *)
Theorem updated_one_way_sync (this : Component) (cp : gmap string JsValue) :
  let after := this_after (updated cp this) in
  completion (updated cp this) = Normal tt
  ∧ _mode after = (if Map_has cp "format" then format after else _mode this)
  ∧ _showChordsInternal after =
      (if Map_has cp "showChords"
       then showChords after else _showChordsInternal this)
  ∧ _selectedInstrument after =
      (if Map_has cp "instrument"
       then instrument after else _selectedInstrument this)
  ∧ external after = external this
  ∧ (∀ old mode,
       _mode (this_after (updated (<["format" := old]> cp)
                (this_after (handleModeChange mode this)))) = format this)
  ∧ (∀ old,
       _showChordsInternal
         (this_after (updated (<["showChords" := old]> cp)
            (this_after (toggleChords this)))) = showChords this)
  ∧ (∀ old select_value,
       _selectedInstrument
         (this_after (updated (<["instrument" := old]> cp)
            (this_after (handleInstrumentChange select_value this))))
       = instrument this)
  ∧ (let connected := this_after (connectedCallback this) in
     _mode connected = format this
     ∧ _showChordsInternal connected = showChords this
     ∧ _selectedInstrument connected = instrument this
     ∧ external connected = external this)
  ∧ (∀ mode, external (this_after (handleModeChange mode this))
             = external this)
  ∧ (∀ select_value,
       external (this_after (handleInstrumentChange select_value this))
       = external this)
  ∧ external (this_after (toggleChords this)) = external this.
Proof.
  simpl. rewrite updated_run. simpl. split_and!; try reflexivity.
  - intros old mode. rewrite updated_run. simpl.
    by rewrite Map_has_insert.
  - intros old. rewrite updated_run. simpl.
    by rewrite Map_has_insert.
  - intros old select_value. rewrite updated_run. simpl.
    by rewrite Map_has_insert.
Qed.

(** ** The handlers *)

Lemma extractedChords_content_only
    (parser_parse : jsstring → Completion Song) this1 this2 :
  content this1 = content this2 →
  completion (extractedChords parser_parse this1)
  = completion (extractedChords parser_parse this2)
  ∧ trace (extractedChords parser_parse this1)
    = trace (extractedChords parser_parse this2).
Proof. intros H. rewrite !extractedChords_run. simpl. by rewrite H. Qed.

(** C5.  [handleModeChange mode] sets the internal mode and dispatches
    exactly one event, [mode-changed] with [mode] as its detail;
    [handleInstrumentChange] sets the selected instrument to the value of
    the select element and dispatches exactly one event,
    [instrument-changed] with that value as its detail.  Both leave
    [content] as it is, and [extractedChords] gives the same array after
    as before. *)
Theorem handlers_dispatch_once
    (parser_parse : jsstring → Completion Song) (this : Component)
    (mode : Mode) (select_value : jsstring) :
  (let r := handleModeChange mode this in
   completion r = Normal tt
   ∧ trace r = [Dispatch {| ev_type := "mode-changed";
                            detail := DetailMode mode;
                            bubbles := true; composed := true |}]
   ∧ _mode (this_after r) = mode
   ∧ content (this_after r) = content this
   ∧ completion (extractedChords parser_parse (this_after r))
     = completion (extractedChords parser_parse this))
  ∧ (let r := handleInstrumentChange select_value this in
     completion r = Normal tt
     ∧ trace r = [Dispatch {| ev_type := "instrument-changed";
                              detail := DetailInstrument select_value;
                              bubbles := true; composed := true |}]
     ∧ _selectedInstrument (this_after r) = select_value
     ∧ content (this_after r) = content this
     ∧ completion (extractedChords parser_parse (this_after r))
       = completion (extractedChords parser_parse this)).
Proof.
  split; simpl; split_and!; try reflexivity;
    by apply extractedChords_content_only.
Qed.

(** ** The chart panel *)

Lemma render_panel_slots
    (parser_parse : jsstring → Completion Song)
    (htmlFormatter_format textFormatter_format : Song → Completion jsstring)
    (JSON_stringify : list jsstring → jsstring) (this : Component) :
  ∃ view,
    returns (render parser_parse htmlFormatter_format textFormatter_format
               JSON_stringify) this view
    ∧ panel_slots view =
        match chart_of JSON_stringify
                (chords_of (parser_parse (content this))) this with
        | EmptyTemplate => []
        | section => [(chordPosition this, section)]
        end.
Proof.
  destruct (render_view parser_parse htmlFormatter_format
              textFormatter_format JSON_stringify this)
    as (view & text & Hv & _ & _ & Htop & Hright & Hbottom & _).
  exists view. split; [done|].
  unfold panel_slots. rewrite Htop, Hright, Hbottom. unfold chart_of.
  destruct (chordPosition this), (_showChordsInternal this),
    (chords_of (parser_parse (content this))); reflexivity.
Qed.

(** C6.  The view [render] returns holds a chart section if and only if
    the internal visibility flag is set and [extractedChords] is not
    empty; it then holds exactly one, in the slot named by
    [chordPosition].  [toggleChords] negates the flag and nothing else, so
    after one toggle the section is there if and only if the flag was
    clear and the chords are not empty, and after a second toggle the
    sections are those of the view before. *)
Theorem chart_panel_iff_shown_and_chords
    (parser_parse : jsstring → Completion Song)
    (htmlFormatter_format textFormatter_format : Song → Completion jsstring)
    (JSON_stringify : list jsstring → jsstring) (this : Component) :
  let render' :=
    render parser_parse htmlFormatter_format textFormatter_format
      JSON_stringify in
  let toggled := this_after (toggleChords this) in
  ∃ view view1 view2 chordArray,
    completion (render' this) = Normal view
    ∧ completion (extractedChords parser_parse this) = Normal chordArray
    ∧ (panel_slots view ≠ [] ↔
       _showChordsInternal this = true ∧ chordArray ≠ [])
    ∧ (panel_slots view = []
       ∨ panel_slots view =
           [(chordPosition this,
             ChordChartsSection (chordPosition this)
               (JSON_stringify chordArray) (_selectedInstrument this))])
    ∧ completion (toggleChords this) = Normal tt
    ∧ _showChordsInternal toggled = negb (_showChordsInternal this)
    ∧ external toggled = external this
    ∧ chordPosition toggled = chordPosition this
    ∧ completion (render' toggled) = Normal view1
    ∧ (panel_slots view1 ≠ [] ↔
       _showChordsInternal this = false ∧ chordArray ≠ [])
    ∧ (panel_slots view1 = []
       ∨ panel_slots view1 =
           [(chordPosition this,
             ChordChartsSection (chordPosition this)
               (JSON_stringify chordArray) (_selectedInstrument this))])
    ∧ completion (render' (this_after (toggleChords toggled))) = Normal view2
    ∧ panel_slots view2 = panel_slots view.
Proof.
  intros render' toggled.
  destruct (render_panel_slots parser_parse htmlFormatter_format
              textFormatter_format JSON_stringify this)
    as (view & [_ Hv] & Hs).
  destruct (render_panel_slots parser_parse htmlFormatter_format
              textFormatter_format JSON_stringify toggled)
    as (view1 & [_ Hv1] & Hs1).
  destruct (render_panel_slots parser_parse htmlFormatter_format
              textFormatter_format JSON_stringify
              (this_after (toggleChords toggled)))
    as (view2 & [_ Hv2] & Hs2).
  exists view, view1, view2, (chords_of (parser_parse (content this))).
  subst render' toggled. simpl in *.
  rewrite Hs, Hs1, Hs2. clear Hs Hs1 Hs2.
  rewrite extractedChords_run. simpl.
  unfold chart_of. simpl.
  destruct (_showChordsInternal this),
    (chords_of (parser_parse (content this))); simpl;
    split_and!; try done; try (by left); try (by right);
    split; try done; intros [? ?]; done.
Qed.

Example render_shown_right :
  (panel_slots <$>
     match completion (render (parses_to G_a_C_b_G_c)
                         (format_as (str "<div></div>"))
                         (format_as (str "G C G"))
                         stringify_plain shown_right) with
     | Normal view => Some view
     | Throw _ => None
     end)
  = Some [(PosRight,
           ChordChartsSection PosRight
             (str "[" ++ [34] ++ str "C" ++ [34] ++ str "," ++ [34]
                ++ str "G" ++ [34] ++ str "]")
             (str "Standard Guitar"))].
Proof. vm_compute. reflexivity. Qed.

Example render_hidden_after_toggle :
  (panel_slots <$>
     match completion (render (parses_to G_a_C_b_G_c)
                         (format_as (str "<div></div>"))
                         (format_as (str "G C G"))
                         stringify_plain
                         (this_after (toggleChords shown_right))) with
     | Normal view => Some view
     | Throw _ => None
     end)
  = Some [].
Proof. vm_compute. reflexivity. Qed.

(** ** Failures *)

(** C7.  On every state and for every parser and formatters, throwing or
    not, [formattedSheet] and [extractedChords] complete normally and
    leave the fields as they were.  When the parser throws, the sheet is
    the placeholder (the empty string for an empty text) and the chords
    are the empty array; when the formatter throws, the sheet is the
    placeholder. *)
Theorem getters_complete_normally
    (parser_parse : jsstring → Completion Song)
    (htmlFormatter_format textFormatter_format : Song → Completion jsstring)
    (this : Component) :
  let formatter :=
    if decide (_mode this = ModeHtml)
    then htmlFormatter_format else textFormatter_format in
  ∃ text chordArray,
    completion (formattedSheet parser_parse htmlFormatter_format
                  textFormatter_format this) = Normal text
    ∧ this_after (formattedSheet parser_parse htmlFormatter_format
                    textFormatter_format this) = this
    ∧ completion (extractedChords parser_parse this) = Normal chordArray
    ∧ this_after (extractedChords parser_parse this) = this
    ∧ match parser_parse (content this) with
      | Throw _ =>
          chordArray = []
          ∧ text = (if decide (content this = [])
                    then str "" else invalid_format (_mode this))
      | Normal song =>
          chordArray = chordArray_of song
          ∧ text = (if decide (content this = []) then str ""
                    else match formatter song with
                         | Normal formatted => formatted
                         | Throw _ => invalid_format (_mode this)
                         end)
      end.
Proof.
  intros formatter.
  rewrite extractedChords_run.
  destruct (decide (content this = [])) as [He|Hne].
  { rewrite (formattedSheet_empty _ _ _ _ He).
    exists (str ""), (chords_of (parser_parse (content this))).
    split_and!; try done. by destruct (parser_parse (content this)). }
  destruct (parser_parse (content this)) as [song|e] eqn:Hp.
  - destruct (formatter song) as [formatted|e] eqn:Hf.
    + rewrite (formattedSheet_formatted _ _ _ _ song formatted Hne Hp Hf).
      by exists formatted, (chordArray_of song).
    + rewrite (formattedSheet_format_throws _ _ _ _ song e Hne Hp Hf).
      by exists (invalid_format (_mode this)), (chordArray_of song).
  - rewrite (formattedSheet_parse_throws _ _ _ _ e Hne Hp).
    by exists (invalid_format (_mode this)), [].
Qed.

(** ** Repeated extraction *)

Lemma dispatched_app t1 t2 :
  dispatched (t1 ++ t2) = dispatched t1 ++ dispatched t2.
Proof. unfold dispatched. apply omap_app. Qed.

(** C8, as amended.  Two successive evaluations of [extractedChords] on
    the same content return the same array and dispatch the same events.
    When the parser returns a song, each evaluation dispatches exactly one
    [chords-changed] event carrying the array, whether or not the chords
    differ from those of the evaluation before; when the parser throws,
    no event is dispatched. *)
Theorem extractedChords_twice
    (parser_parse : jsstring → Completion Song) (this : Component) :
  let first := extractedChords parser_parse this in
  let second := extractedChords parser_parse (this_after first) in
  let both :=
    bind (extractedChords parser_parse)
         (fun _ => extractedChords parser_parse) this in
  completion first = completion second
  ∧ dispatched (trace first) = dispatched (trace second)
  ∧ this_after second = this
  ∧ dispatched (trace both)
    = dispatched (trace first) ++ dispatched (trace second)
  ∧ match parser_parse (content this) with
    | Normal song =>
        completion first = Normal (chordArray_of song)
        ∧ dispatched (trace first)
          = [ {| ev_type := "chords-changed";
                 detail := DetailChords (chordArray_of song);
                 bubbles := true; composed := true |} ]
    | Throw _ =>
        completion first = Normal [] ∧ dispatched (trace first) = []
    end.
Proof.
  cbv zeta. unfold bind. rewrite !extractedChords_run.
  cbn [this_after trace completion].
  split_and!; try done.
  - apply dispatched_app.
  - by destruct (parser_parse (content this)).
Qed.

(** C8, as first stated, fails: on a text that the parser rejects an
    evaluation fires no notification, and neither does the next. *)
Lemma extractedChords_silent_counterexample :
  let this := with_content (str "{start_of_chorus") initial in
  let first := extractedChords always_throws this in
  let second := extractedChords always_throws (this_after first) in
  dispatched (trace first) = []
  ∧ dispatched (trace second) = []
  ∧ ¬ (∃ event, dispatched (trace first) = [event]).
Proof.
  split_and!; [reflexivity|reflexivity|].
  intros [event H]. vm_compute in H. discriminate.
Qed.

(** ** The empty text *)

Lemma no_chord_annotation_chordArray song :
  no_chord_annotation song = true → chordArray_of song = [].
Proof.
  intros Hno. destruct (chordArray_of song) as [|x l] eqn:E; [done|].
  assert (x ∈ chordArray_of song) as Hx by (rewrite E; left).
  apply elem_of_chordArray_of in Hx
    as (c & (line & item & Hline & Hitem & Hc) & Ht & Hne).
  unfold no_chord_annotation in Hno.
  rewrite forallb_forall in Hno.
  apply list_elem_of_In in Hline, Hitem.
  specialize (Hno line Hline). rewrite forallb_forall in Hno.
  specialize (Hno item Hitem). rewrite Hc in Hno.
  apply bool_decide_eq_true in Hno. congruence.
Qed.

(** C9.  On the empty text [formattedSheet] is the empty string, whatever
    the parser and the formatters would do (they are not called), and the
    view shows the No content placeholder.  [extractedChords] hands the
    empty text to the parser like any other; it is the empty array
    provided the parser, on the empty text, throws or returns a song in
    which no item carries a chord. *)
Theorem empty_content_placeholder
    (parser_parse : jsstring → Completion Song)
    (htmlFormatter_format textFormatter_format : Song → Completion jsstring)
    (JSON_stringify : list jsstring → jsstring) (this : Component) :
  content this = [] →
  (∀ song, parser_parse [] = Normal song → no_chord_annotation song = true) →
  completion (extractedChords parser_parse this) = Normal []
  ∧ formattedSheet parser_parse htmlFormatter_format textFormatter_format
      this
    = Build_Outcome this [] (Normal (str ""))
  ∧ ∃ view,
      completion (render parser_parse htmlFormatter_format
                    textFormatter_format JSON_stringify this) = Normal view
      ∧ sheet view = NoContent.
Proof.
  intros He Hparser. split_and!.
  - rewrite extractedChords_run, He. simpl.
    destruct (parser_parse []) as [song|e] eqn:Hp; [|done].
    simpl. f_equal. by apply no_chord_annotation_chordArray, Hparser.
  - by apply formattedSheet_empty.
  - destruct (render_view parser_parse htmlFormatter_format
                textFormatter_format JSON_stringify this)
      as (view & text & [_ Hv] & [_ Ht] & _ & _ & _ & _ & Hsheet & _).
    exists view. split; [done|].
    rewrite (formattedSheet_empty _ _ _ _ He) in Ht. simpl in Ht.
    injection Ht as <-. by rewrite Hsheet.
Qed.

Lemma empty_content_placeholder_witness :
  completion (extractedChords (parses_to empty_song) initial) = Normal []
  ∧ formattedSheet (parses_to empty_song) (format_as (str "<div></div>"))
      (format_as (str "")) initial
    = Build_Outcome initial [] (Normal (str ""))
  ∧ ∃ view,
      completion (render (parses_to empty_song)
                    (format_as (str "<div></div>")) (format_as (str ""))
                    stringify_plain initial) = Normal view
      ∧ sheet view = NoContent.
Proof.
  apply (empty_content_placeholder (parses_to empty_song)
           (format_as (str "<div></div>")) (format_as (str ""))
           stringify_plain initial).
  - reflexivity.
  - intros song [= <-]. reflexivity.
Defined.

(** ** The chords-changed notification *)

(** C10.  One evaluation of [extractedChords]: when the parser throws, it
    returns the empty array and dispatches nothing (the error goes to the
    console); when the parser returns a song, it dispatches exactly one
    [chords-changed] event whose detail is the returned array, empty or
    not.  So an event is dispatched if and only if parsing succeeds.  An
    item whose [chords] is not a string adds nothing to the set. *)
Theorem chords_changed_iff_parsed
    (parser_parse : jsstring → Completion Song) (this : Component) :
  let r := extractedChords parser_parse this in
  match parser_parse (content this) with
  | Throw error =>
      completion r = Normal []
      ∧ dispatched (trace r) = []
      ∧ trace r = [ConsoleError (str "Chord extraction error:") error]
  | Normal song =>
      completion r = Normal (chordArray_of song)
      ∧ trace r
        = [ Dispatch {| ev_type := "chords-changed";
                        detail := DetailChords (chordArray_of song);
                        bubbles := true; composed := true |} ]
  end
  ∧ (dispatched (trace r) ≠ [] ↔
     ∃ song, parser_parse (content this) = Normal song)
  ∧ ∀ chords0 item,
      typeof (chords item) ≠ TString → visit_item chords0 item = chords0.
Proof.
  cbv zeta. rewrite extractedChords_run. cbn [trace completion].
  split_and!.
  - by destruct (parser_parse (content this)).
  - destruct (parser_parse (content this)) as [song|e]; simpl.
    + split; [by exists song|done].
    + split; [done|]. by intros [song ?].
  - intros chords0 item Hty. unfold visit_item.
    destruct (chords item) as [| |b|n|s|id]; simpl; try done.
    + by rewrite andb_false_r.
    + by rewrite andb_false_r.
Qed.

Lemma chords_changed_iff_parsed_witness :
  visit_item [str "G"] {| chords := JsObject 2 |} = [str "G"]
  ∧ visit_item [str "G"] {| chords := JsNumber 7 |} = [str "G"]
  ∧ trace (extractedChords (parses_to title_only)
             (with_content (str "{title: T}") initial))
    = [ Dispatch {| ev_type := "chords-changed";
                    detail := DetailChords [];
                    bubbles := true; composed := true |} ].
Proof.
  destruct (chords_changed_iff_parsed (parses_to title_only)
              (with_content (str "{title: T}") initial))
    as ((_ & Htrace) & _ & Hskip).
  split_and!.
  - apply Hskip. simpl. discriminate.
  - apply Hskip. simpl. discriminate.
  - exact Htrace.
Defined.

(** ** Traces of the read-only computations *)

Lemma runs_ret {A} (a : A) this : runs (ret a) this a [].
Proof. done. Qed.

Lemma runs_get_this this : runs get_this this this [].
Proof. done. Qed.

Lemma runs_bind {A B} (m : M A) (f : A → M B) this a b t1 t2 :
  runs m this a t1 → runs (f a) this b t2 →
  runs (bind m f) this b (t1 ++ t2).
Proof.
  unfold runs, bind. intros Hm Hf. rewrite Hm. simpl. by rewrite Hf.
Qed.

Lemma runs_trace {A} (m : M A) this a t t' :
  runs m this a t → t = t' → runs m this a t'.
Proof. by intros ? <-. Qed.

Lemma runs_eq {A} (m : M A) this a a' t t' :
  runs m this a t → a = a' → t = t' → runs m this a' t'.
Proof. by intros ? <- <-. Qed.

Lemma runs_returns {A} (m : M A) this a t :
  runs m this a t → returns m this a.
Proof. unfold runs, returns. by intros ->. Qed.

Lemma runs_extractedChords parser_parse this :
  runs (extractedChords parser_parse) this
    (chords_of (parser_parse (content this)))
    (extraction_trace (parser_parse (content this))).
Proof. apply extractedChords_run. Qed.

Lemma runs_formattedSheet parser_parse htmlFormatter_format
    textFormatter_format this :
  ∃ text,
    runs (formattedSheet parser_parse htmlFormatter_format
            textFormatter_format) this text [].
Proof. apply formattedSheet_total. Qed.

Lemma runs_renderChordList parser_parse JSON_stringify this :
  let chordArray := chords_of (parser_parse (content this)) in
  runs (renderChordList parser_parse JSON_stringify) this
    (chart_of JSON_stringify chordArray this)
    (mjoin (replicate
              (if _showChordsInternal this
               then match chordArray with [] => 1 | _ :: _ => 2 end
               else 0)
              (extraction_trace (parser_parse (content this))))).
Proof.
  intros chordArray. unfold renderChordList, chart_of, or_else.
  fold chordArray.
  destruct (_showChordsInternal this) eqn:Hshow; simpl.
  - destruct chordArray as [|x l] eqn:Hc; simpl.
    + eapply runs_trace.
      { eapply runs_bind; [apply runs_get_this|]. rewrite Hshow. simpl.
        eapply runs_bind.
        { eapply runs_bind; [apply runs_extractedChords|apply runs_ret]. }
        fold chordArray. rewrite Hc. simpl. apply runs_ret. }
      simpl. by rewrite !app_nil_r.
    + eapply runs_trace.
      { eapply runs_bind; [apply runs_get_this|]. rewrite Hshow. simpl.
        eapply runs_bind.
        { eapply runs_bind; [apply runs_extractedChords|apply runs_ret]. }
        fold chordArray. rewrite Hc. simpl.
        eapply runs_bind; [apply runs_get_this|].
        eapply runs_bind; [apply runs_extractedChords|].
        fold chordArray. rewrite Hc. apply runs_ret. }
      simpl. by rewrite !app_nil_r.
  - eapply runs_trace.
    { eapply runs_bind; [apply runs_get_this|]. rewrite Hshow. simpl.
      eapply runs_bind; apply runs_ret. }
    done.
Qed.

Lemma runs_if {A} (c : bool) (m1 m2 : M A) this a1 a2 t1 t2 :
  runs m1 this a1 t1 → runs m2 this a2 t2 →
  runs (if c then m1 else m2) this (if c then a1 else a2)
       (if c then t1 else t2).
Proof. by destruct c. Qed.

Lemma runs_if_dec {A} {P : Prop} (c : Decision P) (m1 m2 : M A) this
    a1 a2 t1 t2 :
  runs m1 this a1 t1 → runs m2 this a2 t2 →
  runs (if c then m1 else m2) this (if c then a1 else a2)
       (if c then t1 else t2).
Proof. by destruct c. Qed.

Lemma runs_right_chords_shown parser_parse this :
  let chordArray := chords_of (parser_parse (content this)) in
  runs (right_chords_shown parser_parse) this
    (bool_decide (chordPosition this = PosRight)
     && _showChordsInternal this
     && Nat.ltb 0 (List.length chordArray))
    (if bool_decide (chordPosition this = PosRight)
        && _showChordsInternal this
     then extraction_trace (parser_parse (content this)) else []).
Proof.
  intros chordArray. unfold right_chords_shown, and_then.
  eapply runs_eq.
  { eapply runs_bind; [apply runs_get_this|].
    apply runs_if; [|apply runs_ret].
    apply runs_if; [|apply runs_ret].
    eapply runs_bind; [apply runs_extractedChords|apply runs_ret]. }
  - by destruct (bool_decide _), (_showChordsInternal this).
  - simpl. rewrite app_nil_r.
    by destruct (bool_decide _), (_showChordsInternal this).
Qed.

Lemma runs_slot_at parser_parse JSON_stringify p this :
  let chordArray := chords_of (parser_parse (content this)) in
  runs (slot_at parser_parse JSON_stringify p) this
    (if decide (chordPosition this = p)
     then Some (chart_of JSON_stringify chordArray this) else None)
    (if decide (chordPosition this = p)
     then mjoin (replicate
                   (if _showChordsInternal this
                    then match chordArray with [] => 1 | _ :: _ => 2 end
                    else 0)
                   (extraction_trace (parser_parse (content this))))
     else []).
Proof.
  intros chordArray. unfold slot_at.
  eapply runs_trace.
  { eapply runs_bind; [apply runs_get_this|].
    apply runs_if_dec; [|apply runs_ret].
    eapply runs_bind; [apply runs_renderChordList|apply runs_ret]. }
  simpl. case_decide; [|done]. by rewrite app_nil_r.
Qed.

(** One [render]: the fields stay as they are, the view is [view_of] the
    results of the two getters, and the trace is that of
    [extraction_count] evaluations of the getter [extractedChords]. *)
Lemma runs_render parser_parse htmlFormatter_format textFormatter_format
    JSON_stringify this :
  let parsed := parser_parse (content this) in
  ∃ text,
    runs (formattedSheet parser_parse htmlFormatter_format
            textFormatter_format) this text []
    ∧ runs (render parser_parse htmlFormatter_format textFormatter_format
              JSON_stringify) this
        (view_of JSON_stringify (chords_of parsed) text this)
        (mjoin (replicate (extraction_count this (chords_of parsed))
                  (extraction_trace parsed))).
Proof.
  intros parsed.
  destruct (runs_formattedSheet parser_parse htmlFormatter_format
              textFormatter_format this) as [text Ht].
  exists text. split; [done|]. eapply runs_eq.
  { unfold render.
    eapply runs_bind; [apply runs_right_chords_shown|].
    eapply runs_bind; [apply runs_get_this|].
    eapply runs_bind; [apply runs_slot_at|].
    eapply runs_bind; [exact Ht|].
    eapply runs_bind.
    { apply runs_if; [|apply runs_ret].
      apply runs_if_dec;
        (eapply runs_bind; [exact Ht|apply runs_ret]). }
    eapply runs_bind; [apply runs_right_chords_shown|].
    eapply runs_bind.
    { apply runs_if; [|apply runs_ret].
      eapply runs_bind; [apply runs_renderChordList|apply runs_ret]. }
    eapply runs_bind; [apply runs_slot_at|].
    apply runs_ret. }
  - reflexivity.
  - fold parsed. unfold extraction_count.
    destruct (ToBoolean (JsString text)), (decide (_mode this = ModeHtml)),
      (chordPosition this), (_showChordsInternal this),
      (chords_of parsed); simpl; rewrite ?app_nil_r; reflexivity.
Qed.

Lemma dispatched_mjoin_replicate n t :
  dispatched (mjoin (replicate n t)) = mjoin (replicate n (dispatched t)).
Proof.
  induction n as [|n IH]; simpl; [done|].
  by rewrite dispatched_app, IH.
Qed.

Lemma mjoin_replicate_singleton {A} n (x : A) :
  mjoin (replicate n [x]) = replicate n x.
Proof. induction n as [|n IH]; simpl; [done|]. by rewrite IH. Qed.

Lemma mjoin_replicate_nil {A} n : mjoin (replicate n (@nil A)) = [].
Proof. induction n as [|n IH]; simpl; done. Qed.

Lemma extraction_count_le_4 this chordArray :
  (extraction_count this chordArray ≤ 4)%nat.
Proof.
  unfold extraction_count.
  destruct (_showChordsInternal this), (chordPosition this), chordArray;
    lia.
Qed.

(** ** What one render does *)

(** X1.  One [render] completes normally and leaves every field as it
    was.  It evaluates the getter [extractedChords] 0, 1, 2 or 4 times:
    never while the chords are hidden; otherwise twice as often when the
    position is right, and twice as often again when the array is not
    empty.  Each evaluation on a parsed song dispatches one
    [chords-changed] event with the same array; when the parser throws,
    each writes the error to the console and dispatches nothing. *)
Theorem render_extraction_events
    (parser_parse : jsstring → Completion Song)
    (htmlFormatter_format textFormatter_format : Song → Completion jsstring)
    (JSON_stringify : list jsstring → jsstring) (this : Component) :
  let parsed := parser_parse (content this) in
  let n := extraction_count this (chords_of parsed) in
  let r := render parser_parse htmlFormatter_format textFormatter_format
             JSON_stringify this in
  this_after r = this
  ∧ (∃ view, completion r = Normal view)
  ∧ trace r
    = match parsed with
      | Normal song =>
          replicate n (Dispatch (chords_changed (chordArray_of song)))
      | Throw error =>
          replicate n (ConsoleError (str "Chord extraction error:") error)
      end
  ∧ dispatched (trace r)
    = match parsed with
      | Normal song => replicate n (chords_changed (chordArray_of song))
      | Throw _ => []
      end
  ∧ (List.length (trace r) ≤ 4)%nat.
Proof.
  intros parsed n r.
  destruct (runs_render parser_parse htmlFormatter_format
              textFormatter_format JSON_stringify this)
    as (text & _ & Hr).
  unfold runs in Hr. subst r. rewrite Hr. cbn [this_after trace completion].
  fold parsed. fold n.
  assert (mjoin (replicate n (extraction_trace parsed))
          = match parsed with
            | Normal song =>
                replicate n (Dispatch (chords_changed (chordArray_of song)))
            | Throw error =>
                replicate n
                  (ConsoleError (str "Chord extraction error:") error)
            end) as Htrace.
  { destruct parsed; simpl; apply mjoin_replicate_singleton. }
  split_and!.
  - done.
  - by eexists.
  - exact Htrace.
  - rewrite dispatched_mjoin_replicate.
    destruct parsed; simpl.
    + apply mjoin_replicate_singleton.
    + apply mjoin_replicate_nil.
  - rewrite Htrace.
    destruct parsed; rewrite length_replicate; apply extraction_count_le_4.
Qed.

(** X2.  While the chords are hidden, [render] has no effect at all: the
    getter [extractedChords] is not evaluated, so no [chords-changed]
    event is dispatched and no error is logged, whatever the content and
    the parser; the view has no chart section and no instrument select,
    and its button reads Show Chords. *)
Theorem render_hidden_is_silent
    (parser_parse : jsstring → Completion Song)
    (htmlFormatter_format textFormatter_format : Song → Completion jsstring)
    (JSON_stringify : list jsstring → jsstring) (this : Component) :
  _showChordsInternal this = false →
  ∃ view,
    render parser_parse htmlFormatter_format textFormatter_format
      JSON_stringify this
    = Build_Outcome this [] (Normal view)
    ∧ panel_slots view = []
    ∧ instrument_select view = None
    ∧ has_right_chords view = false
    ∧ toggle_label view = str "Show Chords".
Proof.
  intros Hshow.
  destruct (runs_render parser_parse htmlFormatter_format
              textFormatter_format JSON_stringify this)
    as (text & _ & Hr).
  unfold runs in Hr. eexists. split.
  { rewrite Hr. unfold extraction_count. by rewrite Hshow. }
  unfold panel_slots, view_of, chart_of. simpl. rewrite Hshow. simpl.
  rewrite andb_false_r. simpl.
  split_and!; try done.
  by destruct (chordPosition this).
Qed.

Lemma render_hidden_is_silent_witness :
  ∃ view,
    render always_throws (format_as (str "<div></div>")) (format_as (str ""))
      stringify_plain (with_content (str "{start_of_chorus") initial)
    = Build_Outcome (with_content (str "{start_of_chorus") initial) []
        (Normal view)
    ∧ panel_slots view = []
    ∧ instrument_select view = None
    ∧ has_right_chords view = false
    ∧ toggle_label view = str "Show Chords".
Proof.
  apply (render_hidden_is_silent always_throws
           (format_as (str "<div></div>")) (format_as (str ""))
           stringify_plain (with_content (str "{start_of_chorus") initial)).
  reflexivity.
Defined.

(** X3.  The body of the view wraps the string of the getter
    [formattedSheet]: as inner markup in html mode, as preformatted text
    in text mode.  The No content placeholder is shown exactly when that
    string is empty, so also for a non-empty content whose formatter
    returns the empty string. *)
Theorem render_sheet_body
    (parser_parse : jsstring → Completion Song)
    (htmlFormatter_format textFormatter_format : Song → Completion jsstring)
    (JSON_stringify : list jsstring → jsstring) (this : Component) :
  ∃ view text,
    completion (render parser_parse htmlFormatter_format
                  textFormatter_format JSON_stringify this) = Normal view
    ∧ completion (formattedSheet parser_parse htmlFormatter_format
                    textFormatter_format this) = Normal text
    ∧ sheet view
      = match text, _mode this with
        | [], _ => NoContent
        | _ :: _, ModeHtml => InnerHTML text
        | _ :: _, ModeText => Pre text
        end
    ∧ (sheet view = NoContent ↔ text = [])
    ∧ data_mode view = _mode this.
Proof.
  destruct (runs_render parser_parse htmlFormatter_format
              textFormatter_format JSON_stringify this)
    as (text & Ht & Hr).
  unfold runs in Ht, Hr. eexists _, text. rewrite Hr, Ht.
  cbn [completion]. split; [reflexivity|]. split; [reflexivity|].
  unfold view_of. simpl.
  split_and!; try done.
  - destruct text, (_mode this); reflexivity.
  - destruct text, (_mode this); simpl; split; done.
Qed.

(** X4.  A non-empty content that the parser rejects is rendered as the
    placeholder of the active mode, [<div>Invalid ChordPro format</div>]
    as markup or [Invalid ChordPro format] as preformatted text, without
    a chart section and without any event, also when the chords are
    shown. *)
Theorem render_rejected_content
    (parser_parse : jsstring → Completion Song)
    (htmlFormatter_format textFormatter_format : Song → Completion jsstring)
    (JSON_stringify : list jsstring → jsstring) (this : Component)
    (error : JsValue) :
  content this ≠ [] →
  parser_parse (content this) = Throw error →
  let r := render parser_parse htmlFormatter_format textFormatter_format
             JSON_stringify this in
  ∃ view,
    completion r = Normal view
    ∧ sheet view
      = match _mode this with
        | ModeHtml => InnerHTML (str "<div>Invalid ChordPro format</div>")
        | ModeText => Pre (str "Invalid ChordPro format")
        end
    ∧ panel_slots view = []
    ∧ has_right_chords view = false
    ∧ dispatched (trace r) = [].
Proof.
  intros Hne Hp r.
  destruct (runs_render parser_parse htmlFormatter_format
              textFormatter_format JSON_stringify this)
    as (text & Ht & Hr).
  unfold runs in Ht, Hr. subst r. rewrite Hr.
  rewrite (formattedSheet_parse_throws _ _ _ _ error Hne Hp) in Ht.
  injection Ht as <-.
  eexists. cbn [completion trace]. split; [reflexivity|].
  rewrite Hp. simpl.
  rewrite dispatched_mjoin_replicate. simpl. rewrite mjoin_replicate_nil.
  unfold panel_slots, view_of, chart_of, invalid_format. simpl.
  rewrite !andb_false_r. simpl.
  split_and!; try done.
  - by destruct (_mode this).
  - by destruct (chordPosition this).
Qed.

Lemma render_rejected_content_witness :
  let this :=
    with_showChordsInternal true
      (with_content (str "{start_of_chorus") initial) in
  let r := render always_throws (format_as (str "<div></div>"))
             (format_as (str "")) stringify_plain this in
  ∃ view,
    completion r = Normal view
    ∧ sheet view
      = match _mode this with
        | ModeHtml => InnerHTML (str "<div>Invalid ChordPro format</div>")
        | ModeText => Pre (str "Invalid ChordPro format")
        end
    ∧ panel_slots view = []
    ∧ has_right_chords view = false
    ∧ dispatched (trace r) = [].
Proof.
  apply (render_rejected_content always_throws
           (format_as (str "<div></div>")) (format_as (str ""))
           stringify_plain
           (with_showChordsInternal true
              (with_content (str "{start_of_chorus") initial))
           (JsObject 1)).
  - vm_compute. discriminate.
  - reflexivity.
Defined.

(** X5.  The [has-right-chords] class and the right panel go together:
    the class is set exactly when the position is right, the chords are
    shown and the extracted array is not empty, and exactly then the
    right panel is there, holding the chart section (never an empty
    template).  The top and bottom slots are filled only for their own
    position. *)
Theorem right_panel_matches_class
    (parser_parse : jsstring → Completion Song)
    (htmlFormatter_format textFormatter_format : Song → Completion jsstring)
    (JSON_stringify : list jsstring → jsstring) (this : Component) :
  ∃ view chordArray,
    completion (render parser_parse htmlFormatter_format
                  textFormatter_format JSON_stringify this) = Normal view
    ∧ completion (extractedChords parser_parse this) = Normal chordArray
    ∧ (has_right_chords view = true ↔
       chordPosition this = PosRight ∧ _showChordsInternal this = true
       ∧ chordArray ≠ [])
    ∧ right_chord_panel view
      = (if has_right_chords view
         then Some (ChordChartsSection PosRight (JSON_stringify chordArray)
                      (_selectedInstrument this))
         else None)
    ∧ (top_slot view ≠ None ↔ chordPosition this = PosTop)
    ∧ (bottom_slot view ≠ None ↔ chordPosition this = PosBottom).
Proof.
  destruct (runs_render parser_parse htmlFormatter_format
              textFormatter_format JSON_stringify this)
    as (text & _ & Hr).
  unfold runs in Hr. eexists _, _. rewrite Hr, extractedChords_run.
  cbn [completion]. split; [reflexivity|]. split; [reflexivity|].
  unfold view_of, chart_of. simpl.
  destruct (chordPosition this), (_showChordsInternal this),
    (chords_of (parser_parse (content this))); simpl;
    split_and!; try done; split; try done; intros (? & ? & ?); done.
Qed.

(** ** The getters read only what they need *)

Lemma formattedSheet_sheet_text parser_parse htmlFormatter_format
    textFormatter_format this :
  formattedSheet parser_parse htmlFormatter_format textFormatter_format this
  = Build_Outcome this []
      (Normal (sheet_text parser_parse htmlFormatter_format
                 textFormatter_format (content this) (_mode this))).
Proof.
  unfold formattedSheet, sheet_text, try_catch, bind, call, get_this, ret.
  simpl. destruct (content this) as [|c s] eqn:Hc; simpl; [done|].
  destruct (parser_parse (c :: s)) as [song|e]; simpl; [|done].
  by destruct ((if decide (_mode this = ModeHtml)
                then htmlFormatter_format else textFormatter_format) song).
Qed.

(** The full outcome of [render], with the string of the sheet spelled
    out. *)
Lemma render_outcome parser_parse htmlFormatter_format textFormatter_format
    JSON_stringify this :
  let parsed := parser_parse (content this) in
  render parser_parse htmlFormatter_format textFormatter_format
    JSON_stringify this
  = Build_Outcome this
      (mjoin (replicate (extraction_count this (chords_of parsed))
                (extraction_trace parsed)))
      (Normal (view_of JSON_stringify (chords_of parsed)
                 (sheet_text parser_parse htmlFormatter_format
                    textFormatter_format (content this) (_mode this))
                 this)).
Proof.
  intros parsed.
  destruct (runs_render parser_parse htmlFormatter_format
              textFormatter_format JSON_stringify this)
    as (text & Ht & Hr).
  unfold runs in Ht, Hr.
  rewrite formattedSheet_sheet_text in Ht. injection Ht as <-.
  exact Hr.
Qed.

(** X6.  The getter [formattedSheet] reads the content, the internal mode
    and the formatter of that mode, nothing else: two components with the
    same content and mode, whose formatters of that mode agree, give the
    same string, whatever their other fields and the other formatter. *)
Theorem formattedSheet_reads_content_and_mode
    (parser_parse : jsstring → Completion Song)
    (html1 html2 text1 text2 : Song → Completion jsstring)
    (this1 this2 : Component) :
  content this1 = content this2 →
  _mode this1 = _mode this2 →
  (∀ song,
     (if decide (_mode this1 = ModeHtml) then html1 else text1) song
     = (if decide (_mode this1 = ModeHtml) then html2 else text2) song) →
  completion (formattedSheet parser_parse html1 text1 this1)
  = completion (formattedSheet parser_parse html2 text2 this2).
Proof.
  intros Hc Hm Hf. rewrite !formattedSheet_sheet_text. simpl.
  rewrite <- Hc, <- Hm. unfold sheet_text.
  destruct (content this1); [done|].
  destruct (parser_parse _) as [song|e]; [|done].
  by rewrite Hf.
Qed.

Lemma formattedSheet_reads_content_and_mode_witness :
  completion (formattedSheet (parses_to G_a_C_b_G_c)
                (format_as (str "<div>G C G</div>")) (format_as (str "G C G"))
                shown_right)
  = completion (formattedSheet (parses_to G_a_C_b_G_c)
                  always_throws_format (format_as (str "G C G"))
                  (with_chordPosition PosTop
                     (with_showChordsInternal false shown_right))).
Proof.
  apply (formattedSheet_reads_content_and_mode (parses_to G_a_C_b_G_c)
           (format_as (str "<div>G C G</div>")) always_throws_format
           (format_as (str "G C G")) (format_as (str "G C G"))
           shown_right
           (with_chordPosition PosTop
              (with_showChordsInternal false shown_right))).
  - reflexivity.
  - reflexivity.
  - intros song. reflexivity.
Defined.

(** ** Handlers and lifecycle callbacks *)

(** X7.  [toggleChords] dispatches no event, unlike the two other
    handlers.  It changes the visibility flag and nothing else, and a
    second toggle restores the component exactly. *)
Theorem toggleChords_silent_involution (this : Component) :
  let toggled := this_after (toggleChords this) in
  trace (toggleChords this) = []
  ∧ completion (toggleChords this) = Normal tt
  ∧ toggled ≠ this
  ∧ _mode toggled = _mode this
  ∧ _selectedInstrument toggled = _selectedInstrument this
  ∧ external toggled = external this
  ∧ this_after (toggleChords toggled) = this.
Proof.
  destruct this as [c i s p f m b si]. simpl. split_and!; try done.
  - intros [= Hb]. by destruct b.
  - unfold with_showChordsInternal. simpl. by rewrite negb_involutive.
Qed.

Lemma Map_has_union (cp1 cp2 : gmap string JsValue) name :
  Map_has (cp1 ∪ cp2) name = Map_has cp1 name || Map_has cp2 name.
Proof.
  unfold Map_has. rewrite <- bool_decide_or.
  apply bool_decide_ext, lookup_union_is_Some.
Qed.

(** X8.  Two updates in a row resynchronise what one update with the
    union of the two change sets does; in particular a repeated update
    changes nothing more, and no update dispatches an event. *)
Theorem updated_composes (this : Component) (cp1 cp2 : gmap string JsValue) :
  this_after (updated cp2 (this_after (updated cp1 this)))
  = this_after (updated (cp1 ∪ cp2) this)
  ∧ this_after (updated cp1 (this_after (updated cp1 this)))
    = this_after (updated cp1 this)
  ∧ trace (bind (updated cp1) (fun _ => updated cp2) this) = [].
Proof.
  unfold bind. rewrite !updated_run. cbn.
  rewrite !Map_has_union.
  split_and!; try done.
  - by destruct (Map_has cp1 "format"), (Map_has cp1 "showChords"),
      (Map_has cp1 "instrument"), (Map_has cp2 "format"),
      (Map_has cp2 "showChords"), (Map_has cp2 "instrument").
  - by destruct (Map_has cp1 "format"), (Map_has cp1 "showChords"),
      (Map_has cp1 "instrument").
Qed.

(** X9.  An update whose change set has none of [format], [showChords]
    and [instrument] (a new content or chord position, say) leaves the
    component exactly as it was: the mode, visibility and instrument the
    user chose survive it. *)
Theorem updated_without_synced_keys (this : Component)
    (cp : gmap string JsValue) :
  cp !! "format" = None →
  cp !! "showChords" = None →
  cp !! "instrument" = None →
  updated cp this = Build_Outcome this [] (Normal tt).
Proof.
  intros Hf Hs Hi. rewrite updated_run. unfold Map_has.
  rewrite Hf, Hs, Hi.
  rewrite !(bool_decide_eq_false_2 (is_Some None)) by (by intros [? ?]).
  by destruct this.
Qed.

Lemma updated_without_synced_keys_witness :
  updated {[ "content" := JsString (str "") ]} shown_right
  = Build_Outcome shown_right [] (Normal tt).
Proof.
  apply (updated_without_synced_keys shown_right
           {[ "content" := JsString (str "") ]}).
  - reflexivity.
  - reflexivity.
  - reflexivity.
Defined.

(** X10.  [connectedCallback] does what an update does whose change set
    has all three of [format], [showChords] and [instrument]; it
    dispatches nothing, and connecting twice is connecting once. *)
Theorem connectedCallback_is_full_update (this : Component)
    (cp : gmap string JsValue) :
  is_Some (cp !! "format") →
  is_Some (cp !! "showChords") →
  is_Some (cp !! "instrument") →
  connectedCallback this = updated cp this
  ∧ trace (connectedCallback this) = []
  ∧ this_after (connectedCallback (this_after (connectedCallback this)))
    = this_after (connectedCallback this).
Proof.
  intros Hf Hs Hi. rewrite updated_run. unfold Map_has.
  rewrite !bool_decide_eq_true_2 by done.
  by destruct this.
Qed.

Lemma connectedCallback_is_full_update_witness :
  let cp : gmap string JsValue :=
    {[ "format" := JsUndefined; "showChords" := JsUndefined;
       "instrument" := JsUndefined ]} in
  connectedCallback shown_right = updated cp shown_right
  ∧ trace (connectedCallback shown_right) = []
  ∧ this_after (connectedCallback (this_after (connectedCallback shown_right)))
    = this_after (connectedCallback shown_right).
Proof.
  apply (connectedCallback_is_full_update shown_right
           {[ "format" := JsUndefined; "showChords" := JsUndefined;
              "instrument" := JsUndefined ]}).
  - by eexists.
  - by eexists.
  - by eexists.
Defined.

(** X11.  The handlers do not compare with the current value: choosing
    the mode, or the instrument, that is already selected leaves the
    component exactly as it was and still dispatches the event. *)
Theorem handlers_fire_without_change (this : Component) :
  handleModeChange (_mode this) this
  = Build_Outcome this [Dispatch (mode_changed (_mode this))] (Normal tt)
  ∧ handleInstrumentChange (_selectedInstrument this) this
    = Build_Outcome this
        [Dispatch (instrument_changed (_selectedInstrument this))]
        (Normal tt).
Proof. by destruct this. Qed.

(** X12.  The three handlers act on three different fields: in any order
    they lead to the same component, and of two mode changes (or two
    instrument changes) the later one wins.  The events come in the order
    of the calls, one for each mode or instrument change. *)
Theorem handlers_commute (this : Component) (mode mode' : Mode)
    (select_value select_value' : jsstring) :
  let after {A} (m : M A) (c : Component) := this_after (m c) in
  after (handleModeChange mode) (after (handleInstrumentChange select_value) this)
  = after (handleInstrumentChange select_value) (after (handleModeChange mode) this)
  ∧ after (handleModeChange mode) (after toggleChords this)
    = after toggleChords (after (handleModeChange mode) this)
  ∧ after (handleInstrumentChange select_value) (after toggleChords this)
    = after toggleChords (after (handleInstrumentChange select_value) this)
  ∧ after (handleModeChange mode') (after (handleModeChange mode) this)
    = after (handleModeChange mode') this
  ∧ after (handleInstrumentChange select_value')
      (after (handleInstrumentChange select_value) this)
    = after (handleInstrumentChange select_value') this
  ∧ trace (bind (handleModeChange mode)
             (fun _ => bind toggleChords
                (fun _ => handleInstrumentChange select_value)) this)
    = [Dispatch (mode_changed mode);
       Dispatch (instrument_changed select_value)].
Proof. by destruct this. Qed.

(** ** Handlers followed by a render *)

(** X13.  The instrument is not checked against [availableInstruments]:
    after [handleInstrumentChange] with any string, the view carries that
    string as the value of the select and as the instrument of the chart
    section.  The chords of the section, the slot it sits in and the body
    are those of the view before. *)
Theorem render_after_instrument_change
    (parser_parse : jsstring → Completion Song)
    (htmlFormatter_format textFormatter_format : Song → Completion jsstring)
    (JSON_stringify : list jsstring → jsstring) (this : Component)
    (select_value : jsstring) :
  let render' :=
    render parser_parse htmlFormatter_format textFormatter_format
      JSON_stringify in
  let changed := this_after (handleInstrumentChange select_value this) in
  ∃ view view',
    completion (render' this) = Normal view
    ∧ completion (render' changed) = Normal view'
    ∧ instrument_select view'
      = (fun s => {| select_value := select_value;
                     select_options := availableInstruments |})
          <$> instrument_select view
    ∧ panel_contents view'
      = (fun ji => (ji.1, select_value)) <$> panel_contents view
    ∧ (panel_slots view').*1 = (panel_slots view).*1
    ∧ sheet view' = sheet view.
Proof.
  intros render' changed. subst render' changed.
  rewrite !render_outcome. eexists _, _.
  cbn [completion]. split; [reflexivity|]. split; [reflexivity|].
  unfold panel_contents, panel_slots, view_of, chart_of. simpl.
  destruct (chordPosition this), (_showChordsInternal this),
    (chords_of (parser_parse (content this))); done.
Qed.

(** X14.  Assigning the [chord-position] property moves the chart
    section to the slot of the new position and changes neither its
    chords, nor its instrument, nor the body. *)
Theorem render_after_position_change
    (parser_parse : jsstring → Completion Song)
    (htmlFormatter_format textFormatter_format : Song → Completion jsstring)
    (JSON_stringify : list jsstring → jsstring) (this : Component)
    (p : Position) :
  let render' :=
    render parser_parse htmlFormatter_format textFormatter_format
      JSON_stringify in
  ∃ view view',
    completion (render' this) = Normal view
    ∧ completion (render' (with_chordPosition p this)) = Normal view'
    ∧ panel_contents view' = panel_contents view
    ∧ (panel_slots view').*1 = (fun _ => p) <$> panel_slots view
    ∧ data_chord_position view' = p
    ∧ sheet view' = sheet view
    ∧ instrument_select view' = instrument_select view.
Proof.
  intros render'. subst render'.
  rewrite !render_outcome. eexists _, _.
  cbn [completion]. split; [reflexivity|]. split; [reflexivity|].
  unfold panel_contents, panel_slots, view_of, chart_of. simpl.
  destruct p, (chordPosition this), (_showChordsInternal this),
    (chords_of (parser_parse (content this))); done.
Qed.

(** X15.  After [handleModeChange mode] the view is in that mode: exactly
    one of the two mode buttons is active, the one of [mode]; the body is
    the string of the formatter of [mode]; the chart sections are those
    of the view before. *)
Theorem render_after_mode_change
    (parser_parse : jsstring → Completion Song)
    (htmlFormatter_format textFormatter_format : Song → Completion jsstring)
    (JSON_stringify : list jsstring → jsstring) (this : Component)
    (mode : Mode) :
  let render' :=
    render parser_parse htmlFormatter_format textFormatter_format
      JSON_stringify in
  let changed := this_after (handleModeChange mode this) in
  let text :=
    sheet_text parser_parse htmlFormatter_format textFormatter_format
      (content this) mode in
  ∃ view view',
    completion (render' this) = Normal view
    ∧ completion (render' changed) = Normal view'
    ∧ data_mode view' = mode
    ∧ html_btn_active view' = bool_decide (mode = ModeHtml)
    ∧ text_btn_active view' = negb (html_btn_active view')
    ∧ completion (formattedSheet parser_parse htmlFormatter_format
                    textFormatter_format changed) = Normal text
    ∧ sheet view'
      = match text, mode with
        | [], _ => NoContent
        | _ :: _, ModeHtml => InnerHTML text
        | _ :: _, ModeText => Pre text
        end
    ∧ panel_slots view' = panel_slots view.
Proof.
  intros render' changed text. subst render' changed text.
  rewrite !render_outcome, formattedSheet_sheet_text.
  eexists _, _.
  cbn [completion]. split; [reflexivity|]. split; [reflexivity|].
  unfold panel_slots, view_of, chart_of. simpl.
  split_and!; try done.
  - by destruct mode.
  - by destruct (sheet_text _ _ _ _ _), mode.
Qed.

(** ** More on the extracted array *)

Lemma is_chord_of_chordArray song x :
  x ∈ chordArray_of song ↔ is_chord_of song x.
Proof. apply elem_of_chordArray_of. Qed.

Lemma NoDup_chordArray_of song : NoDup (chordArray_of song).
Proof. apply StronglySorted_str_lt_NoDup, chordArray_of_strict. Qed.

(** X16.  The extracted array depends only on which trimmed, non-blank
    chord strings occur in the song: two songs with the same ones give
    the same array, wherever and how often each one occurs and whatever
    else the songs hold. *)
Theorem chordArray_of_order_insensitive (song1 song2 : Song) :
  (∀ x, is_chord_of song1 x ↔ is_chord_of song2 x) →
  chordArray_of song1 = chordArray_of song2.
Proof.
  intros Hsame. unfold chordArray_of at 2, Array_from.
  apply Array_sort_unique.
  - apply NoDup_Permutation.
    + apply NoDup_chordArray_of.
    + apply NoDup_collect_chords.
    + intros x. rewrite is_chord_of_chordArray, Hsame.
      unfold is_chord_of. by rewrite <- elem_of_collect_chords.
  - apply Array_sort_Sorted.
Qed.

Lemma chordArray_of_order_insensitive_witness :
  chordArray_of G_a_C_b_G_c = chordArray_of C_G_padded.
Proof.
  apply (chordArray_of_order_insensitive G_a_C_b_G_c C_G_padded).
  intros x. rewrite <- !is_chord_of_chordArray. reflexivity.
Defined.

Lemma annotation_app (lines1 lines2 : list Line) c :
  annotation {| lines := lines1 ++ lines2 |} c ↔
  annotation {| lines := lines1 |} c ∨ annotation {| lines := lines2 |} c.
Proof.
  unfold annotation. simpl. split.
  - intros (line & item & [?|?]%elem_of_app & ? & ?);
      [left|right]; by exists line, item.
  - intros [(line & item & ? & ? & ?)|(line & item & ? & ? & ?)];
      exists line, item; rewrite elem_of_app; auto.
Qed.

(** X17.  The chords of a song are those of its first lines together
    with those of its remaining lines: appending lines never removes a
    chord from the array, and adds exactly the chords of the new lines. *)
Theorem chordArray_of_app (lines1 lines2 : list Line) (x : jsstring) :
  x ∈ chordArray_of {| lines := lines1 ++ lines2 |} ↔
  x ∈ chordArray_of {| lines := lines1 |}
  ∨ x ∈ chordArray_of {| lines := lines2 |}.
Proof.
  rewrite !elem_of_chordArray_of. split.
  - intros (c & [?|?]%annotation_app & ? & ?); [left|right]; by exists c.
  - intros [(c & ? & ? & ?)|(c & ? & ? & ?)]; exists c;
      rewrite annotation_app; auto.
Qed.

Lemma trim_ends c :
  trim c ≠ [] →
  ∃ a b, head (trim c) = Some a ∧ last (trim c) = Some b
         ∧ is_white_space a = false ∧ is_white_space b = false.
Proof.
  unfold trim. intros Hne.
  destruct (trimStart_spec c) as (pre & _ & _ & Hhead).
  destruct (trimEnd_spec (trimStart c)) as (post & Heq & _ & Hlast).
  destruct (trimEnd (trimStart c)) as [|a t] eqn:Ht; [done|].
  destruct (last (a :: t)) as [b|] eqn:Hb.
  - exists a, b. split_and!; [done|done| |by apply Hlast].
    apply Hhead. by rewrite Heq.
  - by apply last_None in Hb.
Qed.

(** X18.  No entry of the extracted array is empty, and none begins or
    ends with white space: the first and the last code unit of every
    entry are not white space. *)
Theorem chordArray_of_entries_trimmed (song : Song) (x : jsstring) :
  x ∈ chordArray_of song →
  ∃ a b, head x = Some a ∧ last x = Some b
         ∧ is_white_space a = false ∧ is_white_space b = false.
Proof.
  intros (c & _ & <- & Hne)%elem_of_chordArray_of. by apply trim_ends.
Qed.

Lemma chordArray_of_entries_trimmed_witness :
  ∃ a b, head (str "C") = Some a ∧ last (str "C") = Some b
         ∧ is_white_space a = false ∧ is_white_space b = false.
Proof.
  apply (chordArray_of_entries_trimmed C_G_padded (str "C")).
  apply (bool_decide_unpack _). vm_compute. exact I.
Defined.

Lemma length_Set_add y (s : JsSet) :
  (List.length (Set_add y s) ≤ S (List.length s))%nat.
Proof.
  unfold Set_add. case_decide; [lia|].
  rewrite length_app. simpl. lia.
Qed.

Lemma length_visit_item chords0 item :
  (List.length (visit_item chords0 item) ≤ S (List.length chords0))%nat.
Proof.
  rewrite visit_item_eq. destruct (chord_of_item item); [|lia].
  apply length_Set_add.
Qed.

Lemma length_visit_line chords0 line :
  (List.length (visit_line chords0 line)
   ≤ List.length chords0 + List.length (items line))%nat.
Proof.
  unfold visit_line. revert chords0.
  induction (items line) as [|item l IH]; intros chords0; simpl; [lia|].
  specialize (IH (visit_item chords0 item)).
  pose proof (length_visit_item chords0 item). lia.
Qed.

Lemma length_foldl_visit_line chords0 (ls : list Line) :
  (List.length (foldl visit_line chords0 ls)
   ≤ List.length chords0
     + sum_list ((fun line => List.length (items line)) <$> ls))%nat.
Proof.
  revert chords0. induction ls as [|line ls IH]; intros chords0.
  { change (List.length chords0 ≤ List.length chords0 + 0)%nat. lia. }
  rewrite fmap_cons.
  change (sum_list (?n :: ?l)) with (n + sum_list l)%nat.
  specialize (IH (visit_line chords0 line)).
  pose proof (length_visit_line chords0 line).
  simpl foldl. lia.
Qed.

(** X19.  The extracted array has at most as many entries as the song has
    items; a song without items has no chords. *)
Theorem chordArray_of_length (song : Song) :
  (List.length (chordArray_of song) ≤ item_count song)%nat
  ∧ (item_count song = 0%nat → chordArray_of song = []).
Proof.
  assert (List.length (chordArray_of song) ≤ item_count song)%nat as Hle.
  { unfold chordArray_of, Array_from, collect_chords, item_count.
    rewrite (Permutation_length (Array_sort_Permutation _)).
    apply (length_foldl_visit_line Set_new). }
  split; [done|].
  intros H0. rewrite H0 in Hle.
  destruct (chordArray_of song); [done|simpl in Hle; lia].
Qed.

Lemma chordArray_of_length_witness : chordArray_of empty_song = [].
Proof. apply (chordArray_of_length empty_song). reflexivity. Defined.

Lemma trimStart_white_space c :
  Forall (fun u => is_white_space u = true) c → trimStart c = [].
Proof. induction 1 as [|u c Hu _ IH]; simpl; [done|]. by rewrite Hu. Qed.

(** X20.  An annotation made of white space only (spaces, tabs, line
    breaks, no-break spaces, ...) adds nothing to the set, like an empty
    one. *)
Theorem visit_item_blank (chords0 : JsSet) (c : jsstring) :
  Forall (fun u => is_white_space u = true) c →
  visit_item chords0 {| chords := JsString c |} = chords0.
Proof.
  intros Hws. rewrite visit_item_eq. unfold chord_of_item. simpl.
  unfold trim. rewrite (trimStart_white_space c Hws).
  by case_decide.
Qed.

Lemma visit_item_blank_witness :
  visit_item [str "G"] {| chords := JsString [32; 9; 160; 10] |}
  = [str "G"].
Proof.
  apply (visit_item_blank [str "G"] [32; 9; 160; 10]).
  repeat constructor.
Defined.

Lemma str_lt_head a b (x y : jsstring) :
  a < b → str_lt (a :: x) (b :: y).
Proof.
  intros Hab. unfold str_lt. simpl.
  by destruct (N.ltb_spec a b); [|lia].
Qed.

(** X21.  The array is ordered by UTF-16 code units, not alphabetically:
    an entry whose first code unit is smaller comes first, so every chord
    that begins with a capital letter precedes every chord that begins
    with a small letter. *)
Theorem chordArray_of_first_code_unit (song : Song) (x y : jsstring)
    (a b : N) :
  x ∈ chordArray_of song →
  y ∈ chordArray_of song →
  head x = Some a →
  head y = Some b →
  a < b →
  ∃ l1 l2 l3, chordArray_of song = l1 ++ x :: l2 ++ y :: l3.
Proof.
  intros Hx Hy Ha Hb Hab.
  destruct x as [|a' x]; [done|]. destruct y as [|b' y]; [done|].
  simpl in Ha, Hb. injection Ha as ->. injection Hb as ->.
  pose proof (str_lt_head a b x y Hab) as Hlt.
  pose proof (chordArray_of_strict song) as Hsorted.
  apply list_elem_of_split in Hx as (l1 & r & Heq).
  rewrite Heq in Hy, Hsorted.
  apply elem_of_app in Hy as [Hy|Hy].
  - exfalso.
    assert (str_lt (b :: y) (a :: x)) as Hgt.
    { eapply (StronglySorted_app_1_elem_of str_lt); [done|done|left]. }
    unfold str_lt in Hlt, Hgt.
    apply str_ltb_asym in Hlt. congruence.
  - apply elem_of_cons in Hy as [Hy|Hy].
    + injection Hy as -> _. lia.
    + apply list_elem_of_split in Hy as (l2 & l3 & ->).
      by exists l1, l2, l3.
Qed.

Lemma chordArray_of_first_code_unit_witness :
  ∃ l1 l2 l3, chordArray_of G_am = l1 ++ str "G" :: l2 ++ str "am" :: l3.
Proof.
  apply (chordArray_of_first_code_unit G_am (str "G") (str "am") 71 97).
  - apply (bool_decide_unpack _). vm_compute. exact I.
  - apply (bool_decide_unpack _). vm_compute. exact I.
  - reflexivity.
  - reflexivity.
  - reflexivity.
Defined.

(** ** The bundle names *)

(** X22.  [fileName] gives different formats different bundle names: the
    name of the es bundle, [chordpro-renderer.js], and that of the umd
    bundle, [chordpro-renderer.umd.cjs], are produced by no other format,
    and two other formats never share a name. *)
Theorem fileName_injective (format1 format2 : jsstring) :
  fileName format1 = fileName format2 → format1 = format2.
Proof.
  unfold fileName.
  destruct (decide (format1 = str "es")) as [->|Hes1],
    (decide (format2 = str "es")) as [->|Hes2]; try done.
  - destruct (decide (format2 = str "umd")) as [->|Humd2].
    { intros H. vm_compute in H. discriminate. }
    intros H. apply (f_equal (@List.length N)) in H.
    rewrite !length_app in H.
    change (List.length (str "chordpro-renderer.js")) with 20%nat in H.
    change (List.length (str "chordpro-renderer.")) with 18%nat in H.
    change (List.length (str ".js")) with 3%nat in H. lia.
  - destruct (decide (format1 = str "umd")) as [->|Humd1].
    { intros H. vm_compute in H. discriminate. }
    intros H. apply (f_equal (@List.length N)) in H.
    rewrite !length_app in H.
    change (List.length (str "chordpro-renderer.js")) with 20%nat in H.
    change (List.length (str "chordpro-renderer.")) with 18%nat in H.
    change (List.length (str ".js")) with 3%nat in H. lia.
  - destruct (decide (format1 = str "umd")) as [->|Humd1],
      (decide (format2 = str "umd")) as [->|Humd2]; try done.
    + intros H.
      change (str "chordpro-renderer.umd.cjs")
        with (str "chordpro-renderer." ++ str "umd.cjs") in H.
      apply app_inv_head in H. apply (f_equal reverse) in H.
      rewrite reverse_app in H. vm_compute in H.
      injection H as H. discriminate.
    + intros H.
      change (str "chordpro-renderer.umd.cjs")
        with (str "chordpro-renderer." ++ str "umd.cjs") in H.
      apply app_inv_head in H. apply (f_equal reverse) in H.
      rewrite reverse_app in H. vm_compute in H.
      injection H as H. discriminate.
    + intros H. apply app_inv_head in H. by apply app_inv_tail in H.
Qed.

Lemma fileName_injective_witness : str "es" = str "es".
Proof.
  apply (fileName_injective (str "es") (str "es")). reflexivity.
Defined.
